(** * imessage-reader: a shallow embedding of [scripts/imessage-reader.c]

    The program parses one optional flag, builds the path of the message
    store, runs one fixed query through the SQLite C interface and streams
    the rows to standard output as a JSON array.

    Conventions of the embedding.
    - A C string is the list of the bytes found at the pointer; reading it
      stops at the first NUL byte or at the end of the list (where the
      terminator sits).  A possibly-NULL [const char *] is an [option].
    - [int] values are [Z]; the places where the width matters ([atoi]
      and the 64-bit arithmetic of the query) write the range out.
    - Standard output, standard error and the calls made to the database
      engine are threaded through a small state monad whose second outcome
      is process termination with an exit status. *)

From Stdlib Require Import ZArith List Ascii String Bool Lia.
Import ListNotations.
Open Scope Z_scope.

(** ** Bytes and C strings *)

Abbreviation bytes := (list ascii) (only parsing).

Definition str (s : string) : bytes := list_ascii_of_string s.

Definition NUL : ascii := "000"%char.
Definition BS : ascii := "008"%char.
Definition TAB : ascii := "009"%char.
Definition NL : ascii := "010"%char.
Definition VT : ascii := "011"%char.
Definition FF : ascii := "012"%char.
Definition CR : ascii := "013"%char.
Definition SPACE : ascii := "032"%char.
Definition DQUOTE : ascii := "034"%char.
Definition BACKSLASH : ascii := "092"%char.

(** [(unsigned char)c] as a number. *)
Definition code (c : ascii) : Z := Z.of_N (N_of_ascii c).

(** The bytes a C routine sees at a [char *]: everything before the first
    NUL. *)
Fixpoint c_str (s : bytes) : bytes :=
  match s with
  | [] => []
  | c :: s' => if Ascii.eqb c NUL then [] else c :: c_str s'
  end.

Fixpoint bytes_eqb (a b : bytes) : bool :=
  match a, b with
  | [], [] => true
  | x :: a', y :: b' => Ascii.eqb x y && bytes_eqb a' b'
  | _, _ => false
  end.

(** [strcmp(a, b) == 0]. *)
Definition strcmp_eq (a b : bytes) : bool := bytes_eqb (c_str a) (c_str b).

(** ** The process: output streams, engine calls, termination *)

(** The calls by which [main] acquires, advances and releases the
    engine's resources: [sqlite3_open_v2], [sqlite3_prepare_v2],
    [sqlite3_bind_int], [sqlite3_step], [sqlite3_finalize] and
    [sqlite3_close].  The accessors [sqlite3_errmsg] and
    [sqlite3_column_text], which only read, are not recorded as calls:
    their results come from [w_errmsg] and from the current row. *)
Inductive Call :=
| CallOpen (path : bytes) (flags : Z)
| CallPrepare (sql : bytes)
| CallBindInt (idx : Z) (value : Z)
| CallStep
| CallFinalize
| CallClose.

Record Proc := mkProc {
  p_stdout : bytes;
  p_stderr : bytes;
  p_calls : list Call
}.

Definition proc0 : Proc := mkProc [] [] [].

Inductive outcome (A : Type) :=
| Done (a : A)
| Exited (status : Z).
Arguments Done {A} a.
Arguments Exited {A} status.

Definition M (A : Type) : Type := Proc -> outcome A * Proc.

Definition ret {A} (a : A) : M A := fun p => (Done a, p).

Definition bind {A B} (m : M A) (k : A -> M B) : M B :=
  fun p =>
    match m p with
    | (Done a, p') => k a p'
    | (Exited st, p') => (Exited st, p')
    end.

Declare Scope proc_scope.
Delimit Scope proc_scope with proc.
Notation "x <- m ;; k" := (bind m (fun x => k))
  (at level 61, m at next level, right associativity) : proc_scope.
Notation "m ;; k" := (bind m (fun _ => k))
  (at level 61, right associativity) : proc_scope.
Open Scope proc_scope.

(** [exit(status)], and [return status] from [main], which ends the process
    the same way. *)
Definition exit {A} (status : Z) : M A := fun p => (Exited status, p).

(** Writing to [stdout] and [stderr]. *)
Definition out (s : bytes) : M unit :=
  fun p => (Done tt, mkProc (p_stdout p ++ s) (p_stderr p) (p_calls p)).

Definition err (s : bytes) : M unit :=
  fun p => (Done tt, mkProc (p_stdout p) (p_stderr p ++ s) (p_calls p)).

Definition call (c : Call) : M unit :=
  fun p => (Done tt, mkProc (p_stdout p) (p_stderr p) (p_calls p ++ [c])).

Definition putchar (c : ascii) : M unit := out [c].
Definition fputs_stdout (s : bytes) : M unit := out s.

(** ** [printf("\\u%04x", c)] *)

Definition hex_digit (n : Z) : ascii :=
  if n <? 10 then ascii_of_N (Z.to_N (48 + n))
  else ascii_of_N (Z.to_N (87 + n)).

(** [%04x] of a value below 65536: four lower-case hexadecimal digits. *)
Definition fmt_04x (n : Z) : bytes :=
  [hex_digit (n / 4096 mod 16); hex_digit (n / 256 mod 16);
   hex_digit (n / 16 mod 16); hex_digit (n mod 16)].

(** ** [print_json_string] *)

(** The body of the [switch (c)]. *)
Definition print_json_char (c : ascii) : M unit :=
  if Ascii.eqb c DQUOTE then fputs_stdout [BACKSLASH; DQUOTE]
  else if Ascii.eqb c BACKSLASH then fputs_stdout [BACKSLASH; BACKSLASH]
  else if Ascii.eqb c NL then fputs_stdout [BACKSLASH; "n"%char]
  else if Ascii.eqb c CR then fputs_stdout [BACKSLASH; "r"%char]
  else if Ascii.eqb c TAB then fputs_stdout [BACKSLASH; "t"%char]
  else if Ascii.eqb c BS then fputs_stdout [BACKSLASH; "b"%char]
  else if Ascii.eqb c FF then fputs_stdout [BACKSLASH; "f"%char]
  else if code c <? 32 then out (BACKSLASH :: "u"%char :: fmt_04x (code c))
  else putchar c.

(** [for (const char *p = s; *p; p++) { ... }] *)
Fixpoint print_json_loop (p : bytes) : M unit :=
  match p with
  | [] => ret tt
  | c :: p' =>
      if Ascii.eqb c NUL then ret tt
      else print_json_char c ;; print_json_loop p'
  end.

Definition print_json_string (s : option bytes) : M unit :=
  putchar DQUOTE ;;
  match s with
  | None => putchar DQUOTE
  | Some s => print_json_loop s ;; putchar DQUOTE
  end.

(** ** [atoi]

    The C library's [atoi(s)] is [(int)strtol(s, NULL, 10)] (macOS libc and
    glibc alike): leading white space is skipped, an optional sign is read,
    then the longest run of decimal digits; [strtol] saturates at the range
    of [long] (64 bits here) and the conversion to [int] keeps the low 32
    bits.  A string with no digits in that position converts to 0. *)

Definition isspace (c : ascii) : bool :=
  Ascii.eqb c SPACE || ((9 <=? code c) && (code c <=? 13)).

Definition isdigit (c : ascii) : bool :=
  (48 <=? code c) && (code c <=? 57).

Fixpoint skip_space (s : bytes) : bytes :=
  match s with
  | c :: s' => if isspace c then skip_space s' else s
  | [] => []
  end.

Fixpoint digits_value (acc : Z) (s : bytes) : Z :=
  match s with
  | c :: s' =>
      if isdigit c then digits_value (acc * 10 + (code c - 48)) s' else acc
  | [] => acc
  end.

Definition LONG_MAX : Z := 9223372036854775807.
Definition LONG_MIN : Z := -9223372036854775808.
Definition INT_MAX : Z := 2147483647.
Definition INT_MIN : Z := -2147483648.

Definition clamp_long (z : Z) : Z := Z.max LONG_MIN (Z.min LONG_MAX z).

Definition strtol10 (s : bytes) : Z :=
  match skip_space s with
  | c :: s' =>
      if Ascii.eqb c "-"%char then clamp_long (- digits_value 0 s')
      else if Ascii.eqb c "+"%char then clamp_long (digits_value 0 s')
      else clamp_long (digits_value 0 (c :: s'))
  | [] => 0
  end.

(** Conversion of a [long] to [int]: the low 32 bits, read as signed. *)
Definition to_int (z : Z) : Z := (z + 2147483648) mod 4294967296 - 2147483648.

Definition atoi (s : bytes) : Z := to_int (strtol10 s).

(** ** Argument parsing *)

Definition DEFAULT_MINUTES : Z := 20.
Definition MAX_PATH : nat := 1024.

Definition FLAG_MINUTES : bytes := str "--minutes".

(** [usage(prog)]: one line on [stderr], then [exit(1)]. *)
Definition usage {A} (prog : bytes) : M A :=
  err (str "Usage: " ++ c_str prog ++ str " [--minutes N]" ++ [NL]) ;;
  exit 1.

(** The [for (int i = 1; i < argc; i++)] loop over [argv + 1]; the flag
    consumes the following argument ([argv[++i]]).  [minutes] is the
    current value of the variable of that name. *)
Fixpoint parse_args (prog : bytes) (args : list bytes) (minutes : Z) : M Z :=
  match args with
  | [] => ret minutes
  | a :: rest =>
      if strcmp_eq a FLAG_MINUTES then
        match rest with
        | [] =>
            err (str "Error: --minutes requires a value" ++ [NL]) ;;
            usage prog
        | v :: rest' =>
            let minutes := atoi v in
            if minutes <=? 0 then
              err (str "Error: minutes must be a positive integer" ++ [NL]) ;;
              exit 1
            else parse_args prog rest' minutes
        end
      else
        err (str "Error: unknown argument '" ++ c_str a ++ str "'" ++ [NL]) ;;
        usage prog
  end.

(** ** The database engine as seen through the calls of [main] *)

Definition SQLITE_OK : Z := 0.
Definition SQLITE_ROW : Z := 100.
Definition SQLITE_DONE : Z := 101.
Definition SQLITE_OPEN_READONLY : Z := 1.

Definition SQL_QUERY : bytes :=
  str "SELECT "
  ++ str "    m.guid, "
  ++ str "    m.text, "
  ++ str "    datetime(m.date / 1000000000 + 978307200, 'unixepoch', 'localtime') AS date_local "
  ++ str "FROM message m "
  ++ str "WHERE "
  ++ str "    m.text LIKE 'jarvis:%' "
  ++ str "    AND m.date > ((strftime('%s', 'now') - 978307200 - (? * 60)) * 1000000000) "
  ++ str "GROUP BY m.text, date_local "
  ++ str "ORDER BY m.date DESC "
  ++ str "LIMIT 50;".

(** One result row: [sqlite3_column_text(stmt, i)] for [i = 0, 1, 2]; a
    NULL column is [None]. *)
Record Row := mkRow {
  col_guid : option bytes;
  col_text : option bytes;
  col_date_local : option bytes
}.

(** What one call of [sqlite3_step] reports. *)
Inductive step_result :=
| StepRow (r : Row)
| StepRc (rc : Z).

Definition step_rc (s : step_result) : Z :=
  match s with
  | StepRow _ => SQLITE_ROW
  | StepRc rc => rc
  end.

(** [sqlite3_column_text] on the current row; NULL when the statement has
    no current row. *)
Definition column_text (s : step_result) (i : nat) : option bytes :=
  match s with
  | StepRow r =>
      match i with
      | 0%nat => col_guid r
      | 1%nat => col_text r
      | 2%nat => col_date_local r
      | _ => None
      end
  | StepRc _ => None
  end.

(** Everything outside the program that [main] consults.  [w_steps m] is
    the sequence of results [sqlite3_step] gives once [m] is bound to the
    parameter; when it is used up the statement reports [SQLITE_DONE]. *)
Record World := mkWorld {
  w_getenv_HOME : option bytes;
  w_getpwuid_dir : option bytes;
  w_open : bytes -> Z;
  w_prepare : bytes -> Z;
  w_bind_int : Z -> Z;
  w_steps : Z -> list step_result;
  w_errmsg : Z -> bytes
}.

(** ** [main] *)

(** [snprintf(buf, size, ...)] keeps the first [size - 1] bytes of the
    formatted text and terminates them. *)
Definition snprintf (size : nat) (formatted : bytes) : bytes :=
  firstn (size - 1) formatted.

Definition DB_SUFFIX : bytes := str "/Library/Messages/chat.db".

Definition KEY_GUID : bytes := str "{" ++ [DQUOTE] ++ str "guid" ++ [DQUOTE] ++ str ":".
Definition KEY_TEXT : bytes := str "," ++ [DQUOTE] ++ str "text" ++ [DQUOTE] ++ str ":".
Definition KEY_DATE : bytes := str "," ++ [DQUOTE] ++ str "date_local" ++ [DQUOTE] ++ str ":".

(** [while ((rc = sqlite3_step(stmt)) == SQLITE_ROW) { ... }]; the value
    returned is [rc] when the loop is left.  [row_count] only serves the
    test [row_count > 0]; the query's [LIMIT 50] keeps it far from the
    range of [int]. *)
Fixpoint step_loop (steps : list step_result) (row_count : Z) : M Z :=
  call CallStep ;;
  match steps with
  | [] => ret SQLITE_DONE
  | s :: steps' =>
      let rc := step_rc s in
      if rc =? SQLITE_ROW then
        (if row_count >? 0 then out (str ",") else ret tt) ;;
        let guid := column_text s 0 in
        let text := column_text s 1 in
        let date_local := column_text s 2 in
        out KEY_GUID ;;
        print_json_string guid ;;
        out KEY_TEXT ;;
        print_json_string text ;;
        out KEY_DATE ;;
        print_json_string date_local ;;
        out (str "}") ;;
        step_loop steps' (row_count + 1)
      else ret rc
  end.

Definition main (w : World) (argv : list bytes) : M Z :=
  minutes <- parse_args (hd [] argv) (tl argv) DEFAULT_MINUTES ;;
  home <- match w_getenv_HOME w with
          | Some h => ret h
          | None =>
              match w_getpwuid_dir w with
              | Some d => ret d
              | None =>
                  err (str "Error: cannot determine home directory" ++ [NL]) ;;
                  exit 1
              end
          end ;;
  let db_path := snprintf MAX_PATH (c_str home ++ DB_SUFFIX) in
  call (CallOpen db_path SQLITE_OPEN_READONLY) ;;
  let rc := w_open w db_path in
  if negb (rc =? SQLITE_OK) then
    err (str "Error: cannot open " ++ db_path ++ str ": " ++ c_str (w_errmsg w rc) ++ [NL]) ;;
    call CallClose ;;
    exit 1
  else
  call (CallPrepare SQL_QUERY) ;;
  let rc := w_prepare w SQL_QUERY in
  if negb (rc =? SQLITE_OK) then
    err (str "Error: SQL prepare failed: " ++ c_str (w_errmsg w rc) ++ [NL]) ;;
    call CallClose ;;
    exit 1
  else
  call (CallBindInt 1 minutes) ;;
  let rc := w_bind_int w minutes in
  if negb (rc =? SQLITE_OK) then
    err (str "Error: bind failed: " ++ c_str (w_errmsg w rc) ++ [NL]) ;;
    call CallFinalize ;;
    call CallClose ;;
    exit 1
  else
  out (str "[") ;;
  rc <- step_loop (w_steps w minutes) 0 ;;
  out (str "]" ++ [NL]) ;;
  if negb (rc =? SQLITE_DONE) then
    err (str "Error: query execution failed: " ++ c_str (w_errmsg w rc) ++ [NL]) ;;
    call CallFinalize ;;
    call CallClose ;;
    exit 1
  else
  call CallFinalize ;;
  call CallClose ;;
  ret 0.

(** The finished process: exit status and final streams. *)
Record Result := mkResult {
  exit_status : Z;
  stdout : bytes;
  stderr : bytes;
  engine_calls : list Call
}.

Definition finish (r : outcome Z * Proc) : Result :=
  match r with
  | (Done st, p) => mkResult st (p_stdout p) (p_stderr p) (p_calls p)
  | (Exited st, p) => mkResult st (p_stdout p) (p_stderr p) (p_calls p)
  end.

Definition run (w : World) (argv : list bytes) : Result :=
  finish (main w argv proc0).

(** ** The query's WHERE clause

    [SQL_QUERY] keeps a row when
    [m.text LIKE 'jarvis:%' AND
     m.date > ((strftime('%s', 'now') - 978307200 - (? * 60)) * 1000000000)].
    The arithmetic is the engine's: operands that are integers are combined
    as signed 64-bit integers, and an operation whose integer result does
    not fit is redone on the operands converted to double precision.  All
    values met here are whole numbers, so a double is represented by the
    integer it equals. *)

Inductive sqlval :=
| SqlNull
| SqlInt (z : Z)
| SqlReal (r : Z).

Definition fits_int64 (z : Z) : bool := (LONG_MIN <=? z) && (z <=? LONG_MAX).

(** Rounding of a whole number to the nearest double (53 significant bits,
    ties to even). *)
Definition round_double (z : Z) : Z :=
  let a := Z.abs z in
  if a <? 2 ^ 53 then z
  else
    let e := Z.log2 a - 52 in
    let q := a / 2 ^ e in
    let r := a mod 2 ^ e in
    let half := 2 ^ (e - 1) in
    let q' := if (half <? r) || ((r =? half) && Z.odd q) then q + 1 else q in
    Z.sgn z * (q' * 2 ^ e).

Definition sql_arith (op : Z -> Z -> Z) (a b : sqlval) : sqlval :=
  match a, b with
  | SqlNull, _ | _, SqlNull => SqlNull
  | SqlInt x, SqlInt y =>
      if fits_int64 (op x y) then SqlInt (op x y)
      else SqlReal (round_double (op (round_double x) (round_double y)))
  | SqlInt x, SqlReal y => SqlReal (round_double (op (round_double x) y))
  | SqlReal x, SqlInt y => SqlReal (round_double (op x (round_double y)))
  | SqlReal x, SqlReal y => SqlReal (round_double (op x y))
  end.

Definition sql_sub : sqlval -> sqlval -> sqlval := sql_arith Z.sub.
Definition sql_mul : sqlval -> sqlval -> sqlval := sql_arith Z.mul.

(** [a > b] is true; a comparison with NULL is not. *)
Definition sql_gt (a b : sqlval) : bool :=
  match a, b with
  | SqlNull, _ | _, SqlNull => false
  | SqlInt x, SqlInt y | SqlInt x, SqlReal y
  | SqlReal x, SqlInt y | SqlReal x, SqlReal y => y <? x
  end.

(** The right-hand side of the comparison; [now] is the number of seconds
    [strftime('%s', 'now')] yields and [minutes] the bound parameter. *)
Definition sql_threshold (now minutes : Z) : sqlval :=
  sql_mul
    (sql_sub (sql_sub (SqlInt now) (SqlInt 978307200))
             (sql_mul (SqlInt minutes) (SqlInt 60)))
    (SqlInt 1000000000).

Definition to_lower (c : ascii) : ascii :=
  if (65 <=? code c) && (code c <=? 90) then ascii_of_N (Z.to_N (code c + 32))
  else c.

Fixpoint like_prefix (pat s : bytes) : bool :=
  match pat, s with
  | [], _ => true
  | p :: pat', c :: s' => Ascii.eqb (to_lower p) (to_lower c) && like_prefix pat' s'
  | _ :: _, [] => false
  end.

(** [text LIKE 'jarvis:%']: the pattern's letters match either case. *)
Definition sql_like_jarvis (text : option bytes) : bool :=
  match text with
  | Some t => like_prefix (str "jarvis:") t
  | None => false
  end.

(** A row of the [message] table: [date] is an integer column. *)
Record Message := mkMessage {
  m_guid : option bytes;
  m_text : option bytes;
  m_date : option Z
}.

Definition sql_date (m : Message) : sqlval :=
  match m_date m with
  | Some d => SqlInt d
  | None => SqlNull
  end.

Definition sql_where (now minutes : Z) (m : Message) : bool :=
  sql_like_jarvis (m_text m) && sql_gt (sql_date m) (sql_threshold now minutes).

(** ** Reference definitions used in the statements *)

(** The two hexadecimal digits of each code below 0x20, written out. *)
Definition control_hex (n : Z) : bytes :=
  match n with
  | 0 => str "00" | 1 => str "01" | 2 => str "02" | 3 => str "03"
  | 4 => str "04" | 5 => str "05" | 6 => str "06" | 7 => str "07"
  | 8 => str "08" | 9 => str "09" | 10 => str "0a" | 11 => str "0b"
  | 12 => str "0c" | 13 => str "0d" | 14 => str "0e" | 15 => str "0f"
  | 16 => str "10" | 17 => str "11" | 18 => str "12" | 19 => str "13"
  | 20 => str "14" | 21 => str "15" | 22 => str "16" | 23 => str "17"
  | 24 => str "18" | 25 => str "19" | 26 => str "1a" | 27 => str "1b"
  | 28 => str "1c" | 29 => str "1d" | 30 => str "1e" | 31 => str "1f"
  | _ => []
  end.

(** The escape table of the specification: the seven named characters map
    to their two-character escapes, any other character below 0x20 to
    [\u00XX] with [XX] the two hexadecimal digits of its code, everything
    else to itself. *)
Definition json_escape_char (c : ascii) : bytes :=
  match code c with
  | 34 => [BACKSLASH; DQUOTE]
  | 92 => [BACKSLASH; BACKSLASH]
  | 10 => [BACKSLASH; "n"%char]
  | 13 => [BACKSLASH; "r"%char]
  | 9 => [BACKSLASH; "t"%char]
  | 8 => [BACKSLASH; "b"%char]
  | 12 => [BACKSLASH; "f"%char]
  | n =>
      if n <? 32 then
        [BACKSLASH; "u"%char; "0"%char; "0"%char] ++ control_hex n
      else [c]
  end.

Definition json_escape (s : bytes) : bytes := flat_map json_escape_char s.

(** The JSON string literal for a C string, and for a NULL pointer. *)
Definition json_string_literal (s : option bytes) : bytes :=
  match s with
  | Some s => DQUOTE :: json_escape (c_str s) ++ [DQUOTE]
  | None => [DQUOTE; DQUOTE]
  end.

Definition json_object_text (r : Row) : bytes :=
  KEY_GUID ++ json_string_literal (col_guid r)
  ++ KEY_TEXT ++ json_string_literal (col_text r)
  ++ KEY_DATE ++ json_string_literal (col_date_local r)
  ++ str "}".

(** Objects separated by single commas. *)
Fixpoint comma_separated (objs : list bytes) : bytes :=
  match objs with
  | [] => []
  | [o] => o
  | o :: objs' => o ++ str "," ++ comma_separated objs'
  end.

Definition json_array_text (rows : list Row) : bytes :=
  str "[" ++ comma_separated (map json_object_text rows) ++ str "]" ++ [NL].

(** The value of a decimal numeral: an optional [+] and at least one
    digit, nothing else. *)
Definition all_digits (s : bytes) : bool :=
  match s with
  | [] => false
  | _ => forallb isdigit s
  end.

Definition is_numeral (s : bytes) : bool :=
  match s with
  | c :: s' =>
      if Ascii.eqb c "-"%char || Ascii.eqb c "+"%char then all_digits s'
      else all_digits s
  | [] => false
  end.

Fixpoint decimal_value (acc : Z) (s : bytes) : Z :=
  match s with
  | [] => acc
  | c :: s' => decimal_value (acc * 10 + (code c - 48)) s'
  end.

Definition numeral_value (s : bytes) : Z :=
  match s with
  | c :: s' =>
      if Ascii.eqb c "-"%char then - decimal_value 0 s'
      else if Ascii.eqb c "+"%char then decimal_value 0 s'
      else decimal_value 0 s
  | [] => 0
  end.

(** The text starts with a number: after optional white space and an
    optional sign comes a digit. *)
Definition has_numeric_prefix (s : bytes) : bool :=
  match skip_space s with
  | c :: s' =>
      if Ascii.eqb c "-"%char || Ascii.eqb c "+"%char then
        match s' with
        | d :: _ => isdigit d
        | [] => false
        end
      else isdigit c
  | [] => false
  end.

(** The integer prefix of a text, in the words of the claims: after
    optional white space and an optional sign, the longest run of decimal
    digits, read in base ten; there is none when no digit stands there. *)
Fixpoint drop_spaces (s : bytes) : bytes :=
  match s with
  | c :: s' => if isspace c then drop_spaces s' else s
  | [] => []
  end.

Fixpoint leading_digits (s : bytes) : bytes :=
  match s with
  | c :: s' => if isdigit c then c :: leading_digits s' else []
  | [] => []
  end.

Definition unsigned_prefix (s : bytes) : option Z :=
  match leading_digits s with
  | [] => None
  | ds => Some (decimal_value 0 ds)
  end.

Definition integer_prefix (v : bytes) : option Z :=
  match drop_spaces v with
  | c :: s' =>
      if Ascii.eqb c "-"%char then option_map Z.opp (unsigned_prefix s')
      else if Ascii.eqb c "+"%char then unsigned_prefix s'
      else unsigned_prefix (c :: s')
  | [] => None
  end.

(** ** A JSON reader (RFC 8259)

    Used to state that the text on standard output is JSON and what it
    decodes to.  Strings decode to bytes: an escape [\uXXXX] yields the
    UTF-8 encoding of its code point; escapes in the surrogate range, which
    only have a meaning in pairs, are refused, so the reader accepts a
    subset of the JSON texts. *)

Unset Elimination Schemes.
Inductive json :=
| JNull
| JTrue
| JFalse
| JNumber (lexeme : bytes)
| JString (s : bytes)
| JArray (items : list json)
| JObject (members : list (bytes * json)).
Set Elimination Schemes.

Definition json_is_ws (c : ascii) : bool :=
  Ascii.eqb c SPACE || Ascii.eqb c TAB || Ascii.eqb c NL || Ascii.eqb c CR.

Fixpoint json_ws (s : bytes) : bytes :=
  match s with
  | c :: s' => if json_is_ws c then json_ws s' else s
  | [] => []
  end.

Definition hex_value (c : ascii) : option Z :=
  let n := code c in
  if (48 <=? n) && (n <=? 57) then Some (n - 48)
  else if (97 <=? n) && (n <=? 102) then Some (n - 87)
  else if (65 <=? n) && (n <=? 70) then Some (n - 55)
  else None.

Definition hex4_value (h1 h2 h3 h4 : ascii) : option Z :=
  match hex_value h1, hex_value h2, hex_value h3, hex_value h4 with
  | Some a, Some b, Some c, Some d => Some (a * 4096 + b * 256 + c * 16 + d)
  | _, _, _, _ => None
  end.

Definition byte_of (n : Z) : ascii := ascii_of_N (Z.to_N n).

Definition utf8_encode (cp : Z) : bytes :=
  if cp <? 128 then [byte_of cp]
  else if cp <? 2048 then [byte_of (192 + cp / 64); byte_of (128 + cp mod 64)]
  else [byte_of (224 + cp / 4096); byte_of (128 + cp / 64 mod 64);
        byte_of (128 + cp mod 64)].

Definition is_surrogate (cp : Z) : bool := (55296 <=? cp) && (cp <=? 57343).

Definition json_unescape (e : ascii) : option ascii :=
  if Ascii.eqb e DQUOTE then Some DQUOTE
  else if Ascii.eqb e BACKSLASH then Some BACKSLASH
  else if Ascii.eqb e "/"%char then Some "/"%char
  else if Ascii.eqb e "b"%char then Some BS
  else if Ascii.eqb e "f"%char then Some FF
  else if Ascii.eqb e "n"%char then Some NL
  else if Ascii.eqb e "r"%char then Some CR
  else if Ascii.eqb e "t"%char then Some TAB
  else None.

Definition prepend (pre : bytes) (r : option (bytes * bytes)) : option (bytes * bytes) :=
  match r with
  | Some (v, rest) => Some (pre ++ v, rest)
  | None => None
  end.

(** The characters of a string literal after its opening quote, up to and
    including the closing quote: the decoded bytes and the remaining
    input. *)
Fixpoint json_string_body (s : bytes) : option (bytes * bytes) :=
  match s with
  | [] => None
  | c :: tl =>
      if Ascii.eqb c DQUOTE then Some ([], tl)
      else if Ascii.eqb c BACKSLASH then
        match tl with
        | e :: tl1 =>
            if Ascii.eqb e "u"%char then
              match tl1 with
              | h1 :: h2 :: h3 :: h4 :: tl2 =>
                  match hex4_value h1 h2 h3 h4 with
                  | Some cp =>
                      if is_surrogate cp then None
                      else prepend (utf8_encode cp) (json_string_body tl2)
                  | None => None
                  end
              | _ => None
              end
            else
              match json_unescape e with
              | Some b => prepend [b] (json_string_body tl1)
              | None => None
              end
        | [] => None
        end
      else if code c <? 32 then None
      else prepend [c] (json_string_body tl)
  end.

Fixpoint span_digits (s : bytes) : bytes * bytes :=
  match s with
  | c :: s' =>
      if isdigit c then let (d, r) := span_digits s' in (c :: d, r)
      else ([], s)
  | [] => ([], [])
  end.

(** [int frac? exp?] after an optional minus sign. *)
Definition json_number (s : bytes) : option (bytes * bytes) :=
  let (sign, s0) :=
    match s with
    | c :: s' => if Ascii.eqb c "-"%char then ([c], s') else ([], s)
    | [] => ([], s)
    end in
  let (int_part, s1) := span_digits s0 in
  match int_part with
  | [] => None
  | d :: ds =>
      if Ascii.eqb d "0"%char && negb (match ds with [] => true | _ => false end)
      then None
      else
        let frac :=
          match s1 with
          | c :: s' =>
              if Ascii.eqb c "."%char then
                let (f, r) := span_digits s' in
                match f with
                | [] => None
                | _ => Some (c :: f, r)
                end
              else Some ([], s1)
          | [] => Some ([], s1)
          end in
        match frac with
        | None => None
        | Some (frac_part, s2) =>
            let expo :=
              match s2 with
              | c :: s' =>
                  if Ascii.eqb c "e"%char || Ascii.eqb c "E"%char then
                    let (sg, s'') :=
                      match s' with
                      | g :: t =>
                          if Ascii.eqb g "+"%char || Ascii.eqb g "-"%char
                          then ([g], t) else ([], s')
                      | [] => ([], s')
                      end in
                    let (x, r) := span_digits s'' in
                    match x with
                    | [] => None
                    | _ => Some (c :: sg ++ x, r)
                    end
                  else Some ([], s2)
              | [] => Some ([], s2)
              end in
            match expo with
            | None => None
            | Some (exp_part, s3) =>
                Some (sign ++ int_part ++ frac_part ++ exp_part, s3)
            end
        end
  end.

Fixpoint strip_prefix (pre s : bytes) : option bytes :=
  match pre, s with
  | [], _ => Some s
  | p :: pre', c :: s' => if Ascii.eqb p c then strip_prefix pre' s' else None
  | _ :: _, [] => None
  end.

(** A value, then the elements of an array after its first, then the
    members of an object; [fuel] bounds the number of nested and
    successive values read. *)
Fixpoint json_value (fuel : nat) (s : bytes) : option (json * bytes) :=
  match fuel with
  | O => None
  | S f =>
      match json_ws s with
      | [] => None
      | c :: tl =>
          if Ascii.eqb c DQUOTE then
            match json_string_body tl with
            | Some (v, r) => Some (JString v, r)
            | None => None
            end
          else if Ascii.eqb c "["%char then
            match json_ws tl with
            | c' :: tl' =>
                if Ascii.eqb c' "]"%char then Some (JArray [], tl')
                else
                  match json_elements f tl with
                  | Some (vs, r) => Some (JArray vs, r)
                  | None => None
                  end
            | [] => None
            end
          else if Ascii.eqb c "{"%char then
            match json_ws tl with
            | c' :: tl' =>
                if Ascii.eqb c' "}"%char then Some (JObject [], tl')
                else
                  match json_members f tl with
                  | Some (ms, r) => Some (JObject ms, r)
                  | None => None
                  end
            | [] => None
            end
          else if Ascii.eqb c "n"%char then
            match strip_prefix (str "ull") tl with
            | Some r => Some (JNull, r)
            | None => None
            end
          else if Ascii.eqb c "t"%char then
            match strip_prefix (str "rue") tl with
            | Some r => Some (JTrue, r)
            | None => None
            end
          else if Ascii.eqb c "f"%char then
            match strip_prefix (str "alse") tl with
            | Some r => Some (JFalse, r)
            | None => None
            end
          else
            match json_number (c :: tl) with
            | Some (lx, r) => Some (JNumber lx, r)
            | None => None
            end
      end
  end

with json_elements (fuel : nat) (s : bytes) : option (list json * bytes) :=
  match fuel with
  | O => None
  | S f =>
      match json_value f s with
      | Some (v, r) =>
          match json_ws r with
          | c :: tl =>
              if Ascii.eqb c ","%char then
                match json_elements f tl with
                | Some (vs, r') => Some (v :: vs, r')
                | None => None
                end
              else if Ascii.eqb c "]"%char then Some ([v], tl)
              else None
          | [] => None
          end
      | None => None
      end
  end

with json_members (fuel : nat) (s : bytes) : option (list (bytes * json) * bytes) :=
  match fuel with
  | O => None
  | S f =>
      match json_ws s with
      | q :: tl =>
          if Ascii.eqb q DQUOTE then
            match json_string_body tl with
            | Some (k, r) =>
                match json_ws r with
                | c :: tl1 =>
                    if Ascii.eqb c ":"%char then
                      match json_value f tl1 with
                      | Some (v, r1) =>
                          match json_ws r1 with
                          | c1 :: tl2 =>
                              if Ascii.eqb c1 ","%char then
                                match json_members f tl2 with
                                | Some (ms, r2) => Some ((k, v) :: ms, r2)
                                | None => None
                                end
                              else if Ascii.eqb c1 "}"%char then Some ([(k, v)], tl2)
                              else None
                          | [] => None
                          end
                      | None => None
                      end
                    else None
                | [] => None
                end
            | None => None
            end
          else None
      | [] => None
      end
  end.

(** A whole JSON text: one value, white space, end of input. *)
Definition json_parse (s : bytes) : option json :=
  match json_value (S (List.length s)) s with
  | Some (v, r) =>
      match json_ws r with
      | [] => Some v
      | _ :: _ => None
      end
  | None => None
  end.

(** What a row decodes to. *)
Definition field_value (s : option bytes) : bytes :=
  match s with
  | Some s => c_str s
  | None => []
  end.

Definition json_of_row (r : Row) : json :=
  JObject [(str "guid", JString (field_value (col_guid r)));
           (str "text", JString (field_value (col_text r)));
           (str "date_local", JString (field_value (col_date_local r)))].

(** ** Vocabulary of the statements *)

(** The process state [p] after more output and more engine calls. *)
Definition after (p : Proc) (o e : bytes) (c : list Call) : Proc :=
  mkProc (p_stdout p ++ o) (p_stderr p ++ e) (p_calls p ++ c).

(** [m] returns [a] having written [o] and [e] and made the calls [c]. *)
Definition returns {A} (m : M A) (a : A) (o e : bytes) (c : list Call) : Prop :=
  forall p, m p = (Done a, after p o e c).

(** [m] ends the process with [status] after the same effects. *)
Definition exits {A} (m : M A) (status : Z) (o e : bytes) (c : list Call) : Prop :=
  forall p, m p = (Exited status, after p o e c).

(** [m] only ever adds to the streams and to the calls. *)
Definition appends {A} (m : M A) : Prop :=
  forall p, exists o e c, snd (m p) = after p o e c.

(** [getenv("HOME")], else the password database. *)
Definition home_dir (w : World) : option bytes :=
  match w_getenv_HOME w with
  | Some h => Some h
  | None => w_getpwuid_dir w
  end.

Definition db_path_of (home : bytes) : bytes :=
  snprintf MAX_PATH (c_str home ++ DB_SUFFIX).

(** The execution gets as far as the row loop with [minutes] bound:
    the arguments are accepted, a home directory is found, and opening,
    preparing and binding succeed. *)
Definition reaches_query (w : World) (argv : list bytes) (minutes : Z) : Prop :=
  parse_args (hd [] argv) (tl argv) DEFAULT_MINUTES proc0 = (Done minutes, proc0)
  /\ (exists home, home_dir w = Some home /\ w_open w (db_path_of home) = SQLITE_OK)
  /\ w_prepare w SQL_QUERY = SQLITE_OK
  /\ w_bind_int w minutes = SQLITE_OK.

(** [--minutes v1 --minutes v2 ...] *)
Fixpoint minutes_args (vs : list bytes) : list bytes :=
  match vs with
  | [] => []
  | v :: vs' => FLAG_MINUTES :: v :: minutes_args vs'
  end.

(** What the row loop writes for [rows] when [row_count] rows went before. *)
Fixpoint loop_text (row_count : Z) (rows : list Row) : bytes :=
  match rows with
  | [] => []
  | r :: rows' =>
      (if row_count >? 0 then str "," else []) ++ json_object_text r
      ++ loop_text (row_count + 1) rows'
  end.

(** The result code on which the row loop is left when the statement still
    has [tail] to report. *)
Definition loop_exit (tail : list step_result) : Z :=
  match tail with
  | [] => SQLITE_DONE
  | s :: _ => step_rc s
  end.

(** A text between double quotes, for writing expected output. *)
Definition quoted (s : string) : bytes := DQUOTE :: str s ++ [DQUOTE].

(** A world in which the store opens and the statement yields [steps]. *)
Definition world_of (steps : list step_result) : World :=
  mkWorld (Some (str "/Users/me")) None
          (fun _ => SQLITE_OK) (fun _ => SQLITE_OK) (fun _ => SQLITE_OK)
          (fun _ => steps) (fun _ => str "disk I/O error").

Definition SQLITE_IOERR : Z := 10.

(** A home directory of 1000 bytes and a world that has it. *)
Definition long_home : bytes := "/"%char :: repeat "a"%char 999.

Definition world_long_home : World :=
  mkWorld (Some long_home) None
          (fun _ => SQLITE_OK) (fun _ => SQLITE_OK) (fun _ => SQLITE_OK)
          (fun _ => []) (fun _ => str "unable to open database file").

Definition row_hello : Row :=
  mkRow (Some (str "A1B2")) (Some (str "jarvis: turn on lights"))
        (Some (str "2024-05-01 10:00:00")).

Definition row_nulls : Row := mkRow None None None.

(** ** Vocabulary of the further properties *)

(** The columns [main] reads after a step that reported [SQLITE_ROW]. *)
Definition row_of_step (s : step_result) : Row :=
  mkRow (column_text s 0) (column_text s 1) (column_text s 2).

(** The rows the loop writes for an arbitrary sequence of step results:
    those up to the first result code other than [SQLITE_ROW]. *)
Fixpoint fetched (steps : list step_result) : list Row :=
  match steps with
  | [] => []
  | s :: steps' =>
      if step_rc s =? SQLITE_ROW then row_of_step s :: fetched steps' else []
  end.

(** The result code on which the loop is left. *)
Fixpoint final_rc (steps : list step_result) : Z :=
  match steps with
  | [] => SQLITE_DONE
  | s :: steps' =>
      if step_rc s =? SQLITE_ROW then final_rc steps' else step_rc s
  end.

(** Code 0x20 or above, that is, none of the control characters 0x00 to
    0x1f.  DEL (0x7f) lies above them and passes the test. *)
Definition from_space (c : ascii) : bool := 32 <=? code c.

(** The argument lists the parser accepts, decided without running it:
    pairs of the flag and a value that [atoi] reads as positive. *)
Fixpoint accepted_args (args : list bytes) : bool :=
  match args with
  | [] => true
  | a :: rest =>
      strcmp_eq a FLAG_MINUTES
      && match rest with
         | [] => false
         | v :: rest' => (0 <? atoi v) && accepted_args rest'
         end
  end.

(** The forms a finished run can take. *)
Inductive run_shape : Result -> Prop :=
| shape_before_open e :
    e <> [] -> run_shape (mkResult 1 [] e [])
| shape_open_failed path e :
    e <> [] ->
    run_shape (mkResult 1 [] e [CallOpen path SQLITE_OPEN_READONLY; CallClose])
| shape_prepare_failed path e :
    e <> [] ->
    run_shape (mkResult 1 [] e
                 [CallOpen path SQLITE_OPEN_READONLY; CallPrepare SQL_QUERY;
                  CallClose])
| shape_bind_failed path m e :
    0 < m <= INT_MAX -> e <> [] ->
    run_shape (mkResult 1 [] e
                 [CallOpen path SQLITE_OPEN_READONLY; CallPrepare SQL_QUERY;
                  CallBindInt 1 m; CallFinalize; CallClose])
| shape_fetch_failed path m rows e :
    0 < m <= INT_MAX -> e <> [] ->
    run_shape (mkResult 1 (json_array_text rows) e
                 ([CallOpen path SQLITE_OPEN_READONLY; CallPrepare SQL_QUERY;
                   CallBindInt 1 m]
                  ++ repeat CallStep (S (List.length rows))
                  ++ [CallFinalize; CallClose]))
| shape_done path m rows :
    0 < m <= INT_MAX ->
    run_shape (mkResult 0 (json_array_text rows) []
                 ([CallOpen path SQLITE_OPEN_READONLY; CallPrepare SQL_QUERY;
                   CallBindInt 1 m]
                  ++ repeat CallStep (S (List.length rows))
                  ++ [CallFinalize; CallClose])).

(** * Properties *)

(** ** The monad *)

Lemma after_nil p : after p [] [] [] = p.
Proof. destruct p; unfold after; simpl; now rewrite !app_nil_r. Qed.

Lemma after_after p o1 e1 c1 o2 e2 c2 :
  after (after p o1 e1 c1) o2 e2 c2 = after p (o1 ++ o2) (e1 ++ e2) (c1 ++ c2).
Proof. unfold after; simpl; now rewrite !app_assoc. Qed.

Lemma returns_ret {A} (a : A) : returns (ret a) a [] [] [].
Proof. intros p; unfold ret; now rewrite after_nil. Qed.

Lemma returns_out s : returns (out s) tt s [] [].
Proof. intros p; unfold out, after; now rewrite !app_nil_r. Qed.

Lemma returns_err s : returns (err s) tt [] s [].
Proof. intros p; unfold err, after; now rewrite !app_nil_r. Qed.

Lemma returns_call c : returns (call c) tt [] [] [c].
Proof. intros p; unfold call, after; now rewrite !app_nil_r. Qed.

Lemma exits_exit {A} st : exits (@exit A st) st [] [] [].
Proof. intros p; unfold exit; now rewrite after_nil. Qed.

Lemma returns_bind {A B} (m : M A) (k : A -> M B) a b o1 e1 c1 o2 e2 c2 :
  returns m a o1 e1 c1 -> returns (k a) b o2 e2 c2 ->
  returns (bind m k) b (o1 ++ o2) (e1 ++ e2) (c1 ++ c2).
Proof.
  intros Hm Hk p. unfold bind. rewrite Hm, Hk. now rewrite after_after.
Qed.

Lemma exits_bind {A B} (m : M A) (k : A -> M B) a st o1 e1 c1 o2 e2 c2 :
  returns m a o1 e1 c1 -> exits (k a) st o2 e2 c2 ->
  exits (bind m k) st (o1 ++ o2) (e1 ++ e2) (c1 ++ c2).
Proof.
  intros Hm Hk p. unfold bind. rewrite Hm, Hk. now rewrite after_after.
Qed.

Lemma exits_bind_left {A B} (m : M A) (k : A -> M B) st o e c :
  exits m st o e c -> exits (bind m k) st o e c.
Proof. intros Hm p. unfold bind. now rewrite Hm. Qed.

Lemma appends_of_returns {A} (m : M A) a o e c : returns m a o e c -> appends m.
Proof. intros H p. exists o, e, c. now rewrite H. Qed.

Lemma appends_of_exits {A} (m : M A) st o e c : exits m st o e c -> appends m.
Proof. intros H p. exists o, e, c. now rewrite H. Qed.

Lemma appends_bind {A B} (m : M A) (k : A -> M B) :
  appends m -> (forall a, appends (k a)) -> appends (bind m k).
Proof.
  intros Hm Hk p. unfold bind.
  destruct (Hm p) as (o1 & e1 & c1 & H1).
  destruct (m p) as [[a | st] p1]; simpl in H1; subst p1.
  - destruct (Hk a (after p o1 e1 c1)) as (o2 & e2 & c2 & H2).
    rewrite H2, after_after. now eexists _, _, _.
  - simpl. now eexists _, _, _.
Qed.

(** ** [print_json_string] *)

Lemma print_json_char_escape c :
  c <> NUL -> print_json_char c = out (json_escape_char c).
Proof.
  destruct c as [[] [] [] [] [] [] [] []]; intros H;
    solve [reflexivity | now elim H].
Qed.

Lemma print_json_loop_returns s :
  returns (print_json_loop s) tt (json_escape (c_str s)) [] [].
Proof.
  induction s as [| c s IH]; simpl.
  - apply returns_ret.
  - destruct (Ascii.eqb_spec c NUL) as [-> | Hc].
    + apply returns_ret.
    + rewrite print_json_char_escape by assumption.
      change (json_escape (c :: c_str s)) with (json_escape_char c ++ json_escape (c_str s)).
      apply (returns_bind _ _ tt tt _ [] [] _ [] []); [apply returns_out | exact IH].
Qed.

Lemma print_json_string_returns s :
  returns (print_json_string s) tt (json_string_literal s) [] [].
Proof.
  unfold print_json_string, putchar. destruct s as [s |]; simpl.
  - apply (returns_bind _ _ tt tt [DQUOTE] [] [] _ [] []); [apply returns_out |].
    apply (returns_bind _ _ tt tt _ [] [] [DQUOTE] [] []);
      [apply print_json_loop_returns | apply returns_out].
  - apply (returns_bind _ _ tt tt [DQUOTE] [] [] [DQUOTE] [] []); apply returns_out.
Qed.

(** ** Reading back what was written *)

Lemma json_string_body_escape_char c t :
  c <> NUL ->
  json_string_body (json_escape_char c ++ t) = prepend [c] (json_string_body t).
Proof.
  destruct c as [[] [] [] [] [] [] [] []]; intros H;
    solve [reflexivity | now elim H].
Qed.

Lemma c_str_no_nul s : Forall (fun c => c <> NUL) (c_str s).
Proof.
  induction s as [| c s IH]; simpl; [constructor |].
  destruct (Ascii.eqb_spec c NUL); [constructor | now constructor].
Qed.

Lemma json_string_body_escape s rest :
  Forall (fun c => c <> NUL) s ->
  json_string_body (json_escape s ++ DQUOTE :: rest) = Some (s, rest).
Proof.
  induction 1 as [| c s Hc _ IH]; [reflexivity |].
  change (json_escape (c :: s)) with (json_escape_char c ++ json_escape s).
  rewrite <- app_assoc, json_string_body_escape_char by assumption.
  now rewrite IH.
Qed.

Lemma json_string_literal_field s :
  json_string_literal s = DQUOTE :: json_escape (field_value s) ++ [DQUOTE].
Proof. now destruct s. Qed.

Lemma field_value_no_nul s : Forall (fun c => c <> NUL) (field_value s).
Proof. destruct s; simpl; [apply c_str_no_nul | constructor]. Qed.

Lemma json_value_literal f s rest :
  json_value (S f) (json_string_literal s ++ rest)
  = Some (JString (field_value s), rest).
Proof.
  rewrite json_string_literal_field.
  change ((DQUOTE :: json_escape (field_value s) ++ [DQUOTE]) ++ rest)
    with (DQUOTE :: (json_escape (field_value s) ++ [DQUOTE]) ++ rest).
  rewrite <- app_assoc. simpl.
  now rewrite json_string_body_escape by apply field_value_no_nul.
Qed.

Lemma json_object_text_shape r rest :
  json_object_text r ++ rest
  = KEY_GUID ++ json_string_literal (col_guid r)
    ++ KEY_TEXT ++ json_string_literal (col_text r)
    ++ KEY_DATE ++ json_string_literal (col_date_local r)
    ++ "}"%char :: rest.
Proof. unfold json_object_text. now rewrite <- !app_assoc. Qed.

Lemma json_members_last f k v x r :
  Forall (fun c => c <> NUL) k ->
  json_value f x = Some (v, "}"%char :: r) ->
  json_members (S f) (DQUOTE :: json_escape k ++ DQUOTE :: ":"%char :: x)
  = Some ([(k, v)], r).
Proof.
  intros Hk Hv. simpl. rewrite json_string_body_escape by assumption.
  simpl. now rewrite Hv.
Qed.

Lemma json_members_more f k v x r ms r' :
  Forall (fun c => c <> NUL) k ->
  json_value f x = Some (v, ","%char :: r) ->
  json_members f r = Some (ms, r') ->
  json_members (S f) (DQUOTE :: json_escape k ++ DQUOTE :: ":"%char :: x)
  = Some ((k, v) :: ms, r').
Proof.
  intros Hk Hv Hm. simpl. rewrite json_string_body_escape by assumption.
  simpl. rewrite Hv. simpl. now rewrite Hm.
Qed.

Lemma json_value_members f x ms r :
  json_members f (DQUOTE :: x) = Some (ms, r) ->
  json_value (S f) ("{"%char :: DQUOTE :: x) = Some (JObject ms, r).
Proof. intros H. simpl. now rewrite H. Qed.

Lemma key_no_nul (k : bytes) :
  forallb (fun c => negb (Ascii.eqb c NUL)) k = true ->
  Forall (fun c => c <> NUL) k.
Proof.
  rewrite forallb_forall, Forall_forall. intros H c Hc Heq.
  specialize (H c Hc). subst c. discriminate H.
Qed.

Lemma json_value_object f r rest :
  json_value (5 + f) (json_object_text r ++ rest) = Some (json_of_row r, rest).
Proof.
  rewrite json_object_text_shape.
  change (5 + f)%nat with (S (S (3 + f))).
  apply (json_value_members (S (3 + f))).
  apply (json_members_more (3 + f) (str "guid") (JString (field_value (col_guid r)))
           _ (DQUOTE :: json_escape (str "text") ++ DQUOTE :: ":"%char ::
                json_string_literal (col_text r) ++ KEY_DATE
                ++ json_string_literal (col_date_local r) ++ "}"%char :: rest));
    [now apply key_no_nul | apply (json_value_literal (2 + f)) |].
  apply (json_members_more (2 + f) (str "text") (JString (field_value (col_text r)))
           _ (DQUOTE :: json_escape (str "date_local") ++ DQUOTE :: ":"%char ::
                json_string_literal (col_date_local r) ++ "}"%char :: rest));
    [now apply key_no_nul | apply (json_value_literal (1 + f)) |].
  apply (json_members_last (1 + f) (str "date_local"));
    [now apply key_no_nul | apply (json_value_literal f)].
Qed.

Lemma json_elements_step f v x r vs r' :
  json_value f x = Some (v, ","%char :: r) ->
  json_elements f r = Some (vs, r') ->
  json_elements (S f) x = Some (v :: vs, r').
Proof. intros Hv Hvs. simpl. rewrite Hv. simpl. now rewrite Hvs. Qed.

Lemma json_elements_last f v x r :
  json_value f x = Some (v, "]"%char :: r) ->
  json_elements (S f) x = Some ([v], r).
Proof. intros Hv. simpl. now rewrite Hv. Qed.

Lemma json_elements_rows rows : forall r0 f rest,
  (List.length rows + 6 <= f)%nat ->
  json_elements f (comma_separated (map json_object_text (r0 :: rows))
                   ++ "]"%char :: rest)
  = Some (map json_of_row (r0 :: rows), rest).
Proof.
  induction rows as [| r1 rows IH]; intros r0 f rest Hf.
  - destruct f as [| f]; [simpl in Hf; lia |].
    apply json_elements_last.
    replace f with (5 + (f - 5))%nat by (simpl in Hf; lia).
    apply json_value_object.
  - destruct f as [| f]; [simpl in Hf; lia |].
    change (comma_separated (map json_object_text (r0 :: r1 :: rows)))
      with (json_object_text r0 ++ str "," ++
            comma_separated (map json_object_text (r1 :: rows))).
    rewrite <- !app_assoc.
    apply (json_elements_step f (json_of_row r0) _
             (comma_separated (map json_object_text (r1 :: rows))
              ++ "]"%char :: rest)).
    + replace f with (5 + (f - 5))%nat by (simpl in Hf; lia).
      apply json_value_object.
    + apply IH. simpl in Hf. lia.
Qed.

Lemma json_object_text_length r : (6 <= List.length (json_object_text r))%nat.
Proof.
  unfold json_object_text. rewrite !length_app. simpl. lia.
Qed.

Lemma comma_separated_length rows :
  (6 * List.length rows
   <= List.length (comma_separated (map json_object_text rows)))%nat.
Proof.
  induction rows as [| r [| r1 rows] IH].
  - simpl; lia.
  - pose proof (json_object_text_length r). simpl in *. lia.
  - change (comma_separated (map json_object_text (r :: r1 :: rows)))
      with (json_object_text r ++ str "," ++
            comma_separated (map json_object_text (r1 :: rows))).
    pose proof (json_object_text_length r).
    rewrite !length_app. simpl List.length in *. lia.
Qed.

Lemma json_value_array f x vs r :
  json_elements f ("{"%char :: x) = Some (vs, r) ->
  json_value (S f) ("["%char :: "{"%char :: x) = Some (JArray vs, r).
Proof. intros H. simpl. now rewrite H. Qed.

Lemma json_object_text_head r :
  exists x, json_object_text r = "{"%char :: x.
Proof. unfold json_object_text. simpl. now eexists. Qed.

Lemma json_parse_array_text rows :
  json_parse (json_array_text rows) = Some (JArray (map json_of_row rows)).
Proof.
  destruct rows as [| r0 rows]; [reflexivity |].
  unfold json_parse, json_array_text.
  assert (Hlen : (List.length rows + 6
                  <= List.length (str "[" ++ comma_separated (map json_object_text (r0 :: rows))
                                  ++ str "]" ++ [NL]))%nat).
  { rewrite !length_app.
    pose proof (comma_separated_length (r0 :: rows)). simpl List.length in *. lia. }
  pose proof (json_elements_rows rows r0 _ [NL] Hlen) as He.
  assert (Hshape : exists x,
             comma_separated (map json_object_text (r0 :: rows)) ++ "]"%char :: [NL]
             = "{"%char :: x).
  { destruct (json_object_text_head r0) as [x Hx].
    destruct rows; cbn [comma_separated map]; rewrite Hx; simpl; now eexists. }
  destruct Hshape as [x Hx].
  change (str "[" ++ comma_separated (map json_object_text (r0 :: rows)) ++ str "]" ++ [NL])
    with ("["%char :: (comma_separated (map json_object_text (r0 :: rows)) ++ "]"%char :: [NL])) in *.
  rewrite Hx in *.
  rewrite (json_value_array _ _ _ _ He). reflexivity.
Qed.

(** ** The row loop *)

Lemma returns_eq {A} (m : M A) a o e c o' e' c' :
  returns m a o e c -> o = o' -> e = e' -> c = c' -> returns m a o' e' c'.
Proof. now intros H <- <- <-. Qed.

Lemma exits_eq {A} (m : M A) st o e c o' e' c' :
  exits m st o e c -> o = o' -> e = e' -> c = c' -> exits m st o' e' c'.
Proof. now intros H <- <- <-. Qed.

Ltac returns_prim :=
  first [ apply returns_out | apply returns_err | apply returns_call
        | apply returns_ret | apply print_json_string_returns ].

Ltac returns_chain :=
  repeat (eapply returns_bind; [returns_prim | cbv beta]).

Ltac exits_chain :=
  repeat (eapply exits_bind; [returns_prim | cbv beta]).

Lemma separator_returns k :
  returns (if k >? 0 then out (str ",") else ret tt) tt
          (if k >? 0 then str "," else []) [] [].
Proof. destruct (k >? 0); [apply returns_out | apply returns_ret]. Qed.

Lemma step_loop_returns rows : forall tail k,
  loop_exit tail <> SQLITE_ROW ->
  returns (step_loop (map StepRow rows ++ tail) k) (loop_exit tail)
          (loop_text k rows) [] (repeat CallStep (S (List.length rows))).
Proof.
  induction rows as [| r rows IH]; intros tail k Hrc.
  - destruct tail as [| s tail]; cbn [map app step_loop].
    + eapply returns_eq; [returns_chain; apply returns_ret | reflexivity ..].
    + simpl in Hrc. apply Z.eqb_neq in Hrc. rewrite Hrc.
      eapply returns_eq; [returns_chain; apply returns_ret | reflexivity ..].
  - cbn [map app step_loop step_rc]. rewrite Z.eqb_refl.
    eapply returns_eq.
    + eapply returns_bind; [returns_prim | cbv beta].
      eapply returns_bind; [apply separator_returns | cbv beta].
      returns_chain. apply (IH tail (k + 1) Hrc).
    + cbn [loop_text column_text]. unfold json_object_text.
      rewrite <- !app_assoc. reflexivity.
    + reflexivity.
    + reflexivity.
Qed.

Lemma loop_text_positive rows : forall k, 0 < k ->
  loop_text k rows = flat_map (fun r => str "," ++ json_object_text r) rows.
Proof.
  induction rows as [| r rows IH]; intros k Hk; [reflexivity |].
  cbn [loop_text flat_map].
  destruct (Z.gtb_spec k 0) as [_ | Hle]; [| lia].
  rewrite IH by lia. now rewrite <- app_assoc.
Qed.

Lemma comma_separated_cons r rows :
  comma_separated (map json_object_text (r :: rows))
  = json_object_text r ++ flat_map (fun r => str "," ++ json_object_text r) rows.
Proof.
  revert r. induction rows as [| r1 rows IH]; intros r.
  - simpl. now rewrite app_nil_r.
  - change (comma_separated (map json_object_text (r :: r1 :: rows)))
      with (json_object_text r ++ str "," ++
            comma_separated (map json_object_text (r1 :: rows))).
    rewrite IH. cbn [flat_map]. now rewrite <- app_assoc.
Qed.

Lemma loop_text_comma_separated rows :
  loop_text 0 rows = comma_separated (map json_object_text rows).
Proof.
  destruct rows as [| r rows]; [reflexivity |].
  rewrite comma_separated_cons. cbn [loop_text].
  now rewrite loop_text_positive by lia.
Qed.

(** ** Argument parsing *)

Lemma strcmp_flag : strcmp_eq FLAG_MINUTES FLAG_MINUTES = true.
Proof. reflexivity. Qed.

Lemma atoi_flag : atoi FLAG_MINUTES = 0.
Proof. reflexivity. Qed.

Lemma parse_args_flag prog v rest m0 :
  parse_args prog (FLAG_MINUTES :: v :: rest) m0
  = if atoi v <=? 0 then
      err (str "Error: minutes must be a positive integer" ++ [NL]) ;; exit 1
    else parse_args prog rest (atoi v).
Proof. cbn [parse_args]. now rewrite strcmp_flag. Qed.

Lemma parse_args_accept prog pre : forall v rest m0,
  Forall (fun u => 0 < atoi u) pre ->
  0 < atoi v ->
  parse_args prog (minutes_args pre ++ FLAG_MINUTES :: v :: rest) m0
  = parse_args prog rest (atoi v).
Proof.
  induction pre as [| u pre IH]; intros v rest m0 Hpre Hv.
  - cbn [minutes_args app]. rewrite parse_args_flag.
    destruct (Z.leb_spec (atoi v) 0); [lia | reflexivity].
  - inversion Hpre as [| ? ? Hu Hpre']; subst.
    cbn [minutes_args app]. rewrite parse_args_flag.
    destruct (Z.leb_spec (atoi u) 0); [lia |].
    now apply IH.
Qed.

Lemma last_nonempty_default (x : Z) l : forall d d',
  last (x :: l) d = last (x :: l) d'.
Proof.
  revert x. induction l as [| y l IH]; intros x d d'; [reflexivity |].
  change (last (y :: l) d = last (y :: l) d'). apply IH.
Qed.

Lemma parse_args_repeated prog vs : forall m0,
  Forall (fun u => 0 < atoi u) vs ->
  parse_args prog (minutes_args vs) m0 = ret (last (map atoi vs) m0).
Proof.
  induction vs as [| v vs IH]; intros m0 Hvs; [reflexivity |].
  inversion Hvs as [| ? ? Hv Hvs']; subst.
  cbn [minutes_args]. rewrite parse_args_flag.
  destruct (Z.leb_spec (atoi v) 0); [lia |].
  rewrite IH by assumption.
  destruct vs as [| u vs]; [reflexivity |].
  f_equal. cbn [map]. rewrite (last_nonempty_default (atoi u) _ (atoi v) m0).
  reflexivity.
Qed.

Lemma usage_exits prog e0 :
  exists e, exits (err e0 ;; @usage Z prog) 1 [] e [].
Proof.
  eexists. unfold usage.
  eapply exits_eq; [exits_chain; apply exits_exit | reflexivity ..].
Qed.

Lemma reject_exits e0 :
  exists e, exits (err e0 ;; @exit Z 1) 1 [] e [].
Proof.
  eexists. eapply exits_eq; [exits_chain; apply exits_exit | reflexivity ..].
Qed.

Lemma parse_args_reject prog args :
  (forall i v m0,
      nth_error args i = Some FLAG_MINUTES ->
      nth_error args (S i) = Some v ->
      atoi v <= 0 ->
      exists e, exits (parse_args prog args m0) 1 [] e [])
  /\ (forall a i v m0,
      nth_error (a :: args) i = Some FLAG_MINUTES ->
      nth_error (a :: args) (S i) = Some v ->
      atoi v <= 0 ->
      exists e, exits (parse_args prog (a :: args) m0) 1 [] e []).
Proof.
  induction args as [| b args [IH0 IH1]].
  - split.
    + intros [| i] v m0 H; discriminate H.
    + intros a [| [| i]] v m0 _ H; discriminate H.
  - split; [apply IH1 |].
    intros a i v m0 Hi Hv Hle.
    cbn [parse_args].
    destruct (strcmp_eq a FLAG_MINUTES); [| apply usage_exits].
    destruct (Z.leb_spec (atoi b) 0) as [Hb | Hb]; [apply reject_exits |].
    destruct i as [| [| i]].
    + injection Hv as <-. lia.
    + injection Hi as ->. rewrite atoi_flag in Hb. lia.
    + apply (IH0 i v); assumption.
Qed.

(** [atoi] on decimal numerals. *)

Lemma isdigit_not_space c : isdigit c = true -> isspace c = false.
Proof.
  destruct c as [[] [] [] [] [] [] [] []]; intros H;
    solve [reflexivity | discriminate H].
Qed.

Lemma digits_value_decimal s : forall acc,
  forallb isdigit s = true -> digits_value acc s = decimal_value acc s.
Proof.
  induction s as [| c s IH]; intros acc H; [reflexivity |].
  simpl in H. apply andb_true_iff in H as [Hc Hs].
  simpl. rewrite Hc. now apply IH.
Qed.

Lemma all_digits_forallb s : all_digits s = true -> forallb isdigit s = true.
Proof. destruct s; [discriminate | trivial]. Qed.

Lemma strtol10_numeral v :
  is_numeral v = true -> strtol10 v = clamp_long (numeral_value v).
Proof.
  destruct v as [| c s]; [discriminate |].
  unfold is_numeral, strtol10, numeral_value.
  destruct (Ascii.eqb_spec c "-"%char) as [-> | Hm].
  - intros H. apply all_digits_forallb in H.
    cbn. now rewrite digits_value_decimal.
  - destruct (Ascii.eqb_spec c "+"%char) as [-> | Hp].
    + intros H. apply all_digits_forallb in H.
      cbn. now rewrite digits_value_decimal.
    + cbn [orb]. intros H. apply all_digits_forallb in H.
      assert (Hc : isdigit c = true)
        by (simpl in H; now apply andb_true_iff in H as [Hc _]).
      cbn [skip_space]. rewrite (isdigit_not_space c Hc).
      destruct (Ascii.eqb_spec c "-"%char); [contradiction |].
      destruct (Ascii.eqb_spec c "+"%char); [contradiction |].
      now rewrite digits_value_decimal.
Qed.

Lemma atoi_numeral v :
  is_numeral v = true ->
  INT_MIN <= numeral_value v <= INT_MAX ->
  atoi v = numeral_value v.
Proof.
  intros Hnum Hrange. unfold atoi. rewrite strtol10_numeral by assumption.
  unfold clamp_long, to_int, LONG_MIN, LONG_MAX, INT_MIN, INT_MAX in *.
  rewrite Z.min_r, Z.max_r by lia.
  rewrite Z.mod_small by lia. lia.
Qed.

Lemma digits_value_no_digit s :
  match s with
  | d :: _ => isdigit d
  | [] => false
  end = false ->
  digits_value 0 s = 0.
Proof. destruct s as [| d s]; [reflexivity |]. simpl. now intros ->. Qed.

Lemma atoi_no_numeric_prefix v : has_numeric_prefix v = false -> atoi v = 0.
Proof.
  unfold has_numeric_prefix, atoi, strtol10.
  destruct (skip_space v) as [| c s]; [reflexivity |].
  destruct (Ascii.eqb_spec c "-"%char) as [-> | Hm].
  - cbn [orb]. intros H. now rewrite (digits_value_no_digit s H).
  - destruct (Ascii.eqb_spec c "+"%char) as [-> | Hp].
    + cbn [orb]. intros H. now rewrite (digits_value_no_digit s H).
    + cbn [orb]. intros H. now rewrite (digits_value_no_digit (c :: s) H).
Qed.

Lemma atoi_int_range v : INT_MIN <= atoi v <= INT_MAX.
Proof.
  unfold atoi, to_int, INT_MIN, INT_MAX.
  pose proof (Z.mod_pos_bound (strtol10 v + 2147483648) 4294967296). lia.
Qed.

Example atoi_samples :
  atoi (str "45") = 45 /\ atoi (" "%char :: TAB :: str "+7 minutes") = 7
  /\ atoi (str "5x") = 5 /\ atoi (str "abc") = 0 /\ atoi (str "-3") = -3
  /\ atoi (str "0") = 0 /\ atoi [] = 0 /\ atoi (str "2147483647") = INT_MAX.
Proof. vm_compute. repeat split. Qed.

(** Whatever the arguments, a lookback value that comes out of the parser
    is a positive [int]. *)
Lemma parse_args_positive prog args :
  (forall m0 p m p',
      0 < m0 <= INT_MAX ->
      parse_args prog args m0 p = (Done m, p') -> 0 < m <= INT_MAX)
  /\ (forall a m0 p m p',
      0 < m0 <= INT_MAX ->
      parse_args prog (a :: args) m0 p = (Done m, p') -> 0 < m <= INT_MAX).
Proof.
  induction args as [| b args [IH0 IH1]].
  - split.
    + intros m0 p m p' Hm0 H. injection H as <- _. exact Hm0.
    + intros a m0 p m p' _ H. cbn [parse_args] in H.
      destruct (strcmp_eq a FLAG_MINUTES); discriminate H.
  - split; [apply IH1 |].
    intros a m0 p m p' _ H. cbn [parse_args] in H.
    destruct (strcmp_eq a FLAG_MINUTES); [| discriminate H].
    destruct (Z.leb_spec (atoi b) 0) as [Hb | Hb]; [discriminate H |].
    apply (IH0 (atoi b) p m p'); [| exact H].
    pose proof (atoi_int_range b). lia.
Qed.

(** ** Effects only accumulate *)

Ltac appends_prim :=
  first [ eapply appends_of_returns; returns_prim
        | eapply appends_of_exits; apply exits_exit ].

Ltac appends_chain :=
  repeat first
    [ appends_prim
    | apply appends_bind; [| intros ?]
    | match goal with
      | |- appends (if ?b then _ else _) => destruct b
      end ].

Lemma step_loop_appends steps : forall k, appends (step_loop steps k).
Proof.
  induction steps as [| s steps IH]; intros k; cbn [step_loop].
  - appends_chain.
  - apply appends_bind; [appends_prim | intros _].
    destruct (step_rc s =? SQLITE_ROW); [| appends_prim].
    appends_chain. apply IH.
Qed.

Lemma finish_calls_appends (m : M Z) p :
  appends m -> exists c, engine_calls (finish (m p)) = p_calls p ++ c.
Proof.
  intros H. destruct (H p) as (o & e & c & Hsnd).
  destruct (m p) as [[a | st] p1]; simpl in Hsnd; subst p1; now exists c.
Qed.

(** ** [main] *)

Lemma run_parse_exit w argv st e :
  exits (parse_args (hd [] argv) (tl argv) DEFAULT_MINUTES) st [] e [] ->
  run w argv = mkResult st [] e [].
Proof.
  intros H. unfold run, main.
  now rewrite (exits_bind_left _ _ st [] e [] H proc0).
Qed.

Section Run.

(** An execution whose arguments are accepted with the lookback value
    [minutes] and whose home directory is [home]. *)
Variables (w : World) (argv : list bytes) (minutes : Z) (home : bytes).
Hypothesis Hargs :
  parse_args (hd [] argv) (tl argv) DEFAULT_MINUTES proc0 = (Done minutes, proc0).
Hypothesis Hhome : home_dir w = Some home.

Lemma home_dir_resolves :
  returns (match w_getenv_HOME w with
           | Some h => ret h
           | None =>
               match w_getpwuid_dir w with
               | Some d => ret d
               | None =>
                   err (str "Error: cannot determine home directory" ++ [NL]) ;;
                   exit 1
               end
           end) home [] [] [].
Proof.
  unfold home_dir in Hhome.
  destruct (w_getenv_HOME w) as [h |].
  - injection Hhome as ->. apply returns_ret.
  - rewrite Hhome. apply returns_ret.
Qed.

(** The first call to the engine opens the path derived from [home]. *)
Lemma run_calls_open :
  exists c,
    engine_calls (run w argv)
    = CallOpen (db_path_of home) SQLITE_OPEN_READONLY :: c.
Proof.
  unfold run, main. unfold bind at 1. rewrite Hargs.
  unfold bind at 1. rewrite (home_dir_resolves proc0), after_nil.
  fold (db_path_of home).
  unfold bind at 1. cbn [call proc0 p_stdout p_stderr p_calls app].
  match goal with
  | |- exists c, engine_calls (finish (?m ?p)) = _ =>
      destruct (finish_calls_appends m p) as [c Hc];
        [appends_chain; apply step_loop_appends | exists c; exact Hc]
  end.
Qed.

Lemma run_open_fails :
  w_open w (db_path_of home) <> SQLITE_OK ->
  run w argv
  = mkResult 1 []
      (str "Error: cannot open " ++ db_path_of home ++ str ": "
       ++ c_str (w_errmsg w (w_open w (db_path_of home))) ++ [NL])
      [CallOpen (db_path_of home) SQLITE_OPEN_READONLY; CallClose].
Proof.
  intros Hopen.
  unfold run, main. unfold bind at 1. rewrite Hargs.
  unfold bind at 1. rewrite (home_dir_resolves proc0), after_nil.
  fold (db_path_of home).
  apply Z.eqb_neq in Hopen. rewrite Hopen. cbn [negb].
  match goal with
  | |- finish (?m proc0) = _ =>
      assert (H : exits m 1 []
                    (str "Error: cannot open " ++ db_path_of home ++ str ": "
                     ++ c_str (w_errmsg w (w_open w (db_path_of home))) ++ [NL])
                    [CallOpen (db_path_of home) SQLITE_OPEN_READONLY; CallClose])
        by (eapply exits_eq;
            [exits_chain; apply exits_exit
            | reflexivity | simpl; now rewrite app_nil_r | reflexivity]);
      rewrite (H proc0)
  end.
  reflexivity.
Qed.

(** Once the store is open and the statement prepared, [minutes] is what
    is bound to the parameter. *)
Lemma run_calls_bind :
  w_open w (db_path_of home) = SQLITE_OK ->
  w_prepare w SQL_QUERY = SQLITE_OK ->
  exists c,
    engine_calls (run w argv)
    = CallOpen (db_path_of home) SQLITE_OPEN_READONLY
      :: CallPrepare SQL_QUERY :: CallBindInt 1 minutes :: c.
Proof.
  intros Hopen Hprep.
  unfold run, main. unfold bind at 1. rewrite Hargs.
  unfold bind at 1. rewrite (home_dir_resolves proc0), after_nil.
  fold (db_path_of home). rewrite Hopen, Hprep.
  cbn [negb Z.eqb SQLITE_OK].
  unfold bind at 1. cbn [call proc0 p_stdout p_stderr p_calls app].
  unfold bind at 1. cbn [call p_stdout p_stderr p_calls app].
  unfold bind at 1. cbn [call p_stdout p_stderr p_calls app].
  match goal with
  | |- exists c, engine_calls (finish (?m ?p)) = _ =>
      destruct (finish_calls_appends m p) as [c Hc];
        [appends_chain; apply step_loop_appends | exists c; exact Hc]
  end.
Qed.

(** With the parameter bound, what is left of [main] is the row loop and
    the epilogue, started once the opening bracket has been written. *)
Lemma main_unfold :
  w_open w (db_path_of home) = SQLITE_OK ->
  w_prepare w SQL_QUERY = SQLITE_OK ->
  w_bind_int w minutes = SQLITE_OK ->
  main w argv proc0
  = (rc <- step_loop (w_steps w minutes) 0 ;;
     out (str "]" ++ [NL]) ;;
     if negb (rc =? SQLITE_DONE) then
       err (str "Error: query execution failed: " ++ c_str (w_errmsg w rc) ++ [NL]) ;;
       call CallFinalize ;;
       call CallClose ;;
       exit 1
     else
       call CallFinalize ;;
       call CallClose ;;
       ret 0)
      (mkProc (str "[") []
              [CallOpen (db_path_of home) SQLITE_OPEN_READONLY;
               CallPrepare SQL_QUERY; CallBindInt 1 minutes]).
Proof.
  intros Hopen Hprep Hbind.
  unfold main. unfold bind at 1. rewrite Hargs.
  unfold bind at 1. rewrite (home_dir_resolves proc0), after_nil.
  fold (db_path_of home). rewrite Hopen, Hprep, Hbind. reflexivity.
Qed.

End Run.

Lemma run_query w argv minutes rows tail :
  reaches_query w argv minutes ->
  w_steps w minutes = map StepRow rows ++ tail ->
  loop_exit tail <> SQLITE_ROW ->
  exists home,
    home_dir w = Some home /\
    run w argv
    = mkResult
        (if loop_exit tail =? SQLITE_DONE then 0 else 1)
        (json_array_text rows)
        (if loop_exit tail =? SQLITE_DONE then []
         else str "Error: query execution failed: "
              ++ c_str (w_errmsg w (loop_exit tail)) ++ [NL])
        ([CallOpen (db_path_of home) SQLITE_OPEN_READONLY;
          CallPrepare SQL_QUERY; CallBindInt 1 minutes]
         ++ repeat CallStep (S (List.length rows))
         ++ [CallFinalize; CallClose]).
Proof.
  intros (Hargs & (home & Hhome & Hopen) & Hprep & Hbind) Hsteps Hrc.
  exists home. split; [assumption |].
  unfold run. rewrite (main_unfold w argv minutes home) by assumption.
  rewrite Hsteps. unfold bind at 1.
  rewrite (step_loop_returns rows tail 0 Hrc).
  rewrite loop_text_comma_separated.
  destruct (loop_exit tail =? SQLITE_DONE); cbn [negb].
  - match goal with
    | |- context [?m (after ?p ?o ?e ?c)] =>
        assert (H : returns m 0 (str "]" ++ [NL]) [] [CallFinalize; CallClose])
          by (eapply returns_eq; [returns_chain; apply returns_ret | reflexivity ..]);
        rewrite (H (after p o e c))
    end.
    unfold finish, after, json_array_text. simpl. now rewrite <- ?app_assoc.
  - match goal with
    | |- context [?m (after ?p ?o ?e ?c)] =>
        assert (H : exits m 1 (str "]" ++ [NL])
                      (str "Error: query execution failed: "
                       ++ c_str (w_errmsg w (loop_exit tail)) ++ [NL])
                      [CallFinalize; CallClose])
          by (eapply exits_eq;
              [exits_chain; apply exits_exit
              | reflexivity | simpl; now rewrite app_nil_r | reflexivity]);
        rewrite (H (after p o e c))
    end.
    unfold finish, after, json_array_text. simpl. now rewrite <- ?app_assoc.
Qed.

(** ** The timestamp threshold *)

Lemma fits_int64_true z : LONG_MIN <= z <= LONG_MAX -> fits_int64 z = true.
Proof.
  intros [Hlo Hhi]. unfold fits_int64.
  apply andb_true_iff. split; now apply Z.leb_le.
Qed.

Lemma sql_arith_int op x y :
  LONG_MIN <= op x y <= LONG_MAX ->
  sql_arith op (SqlInt x) (SqlInt y) = SqlInt (op x y).
Proof. intros H. cbn [sql_arith]. now rewrite fits_int64_true. Qed.

Lemma sql_threshold_int now minutes :
  0 < minutes <= INT_MAX ->
  LONG_MIN <= (now - 978307200 - minutes * 60) * 1000000000 <= LONG_MAX ->
  sql_threshold now minutes
  = SqlInt ((now - 978307200 - minutes * 60) * 1000000000).
Proof.
  unfold INT_MAX, LONG_MIN, LONG_MAX. intros Hm Hp.
  unfold sql_threshold, sql_sub, sql_mul.
  rewrite (sql_arith_int Z.sub now 978307200)
    by (unfold LONG_MIN, LONG_MAX; lia).
  rewrite (sql_arith_int Z.mul minutes 60)
    by (unfold LONG_MIN, LONG_MAX; lia).
  rewrite (sql_arith_int Z.sub (now - 978307200) (minutes * 60))
    by (unfold LONG_MIN, LONG_MAX; lia).
  apply sql_arith_int. unfold LONG_MIN, LONG_MAX. lia.
Qed.

Lemma sql_gt_int m t :
  sql_gt (sql_date m) (SqlInt t) = true ->
  exists d, m_date m = Some d /\ t < d.
Proof.
  unfold sql_date. destruct (m_date m) as [d |]; [| discriminate].
  simpl. intros H. exists d. split; [reflexivity | now apply Z.ltb_lt].
Qed.


Lemma last_map_atoi v vs d :
  last (map atoi (v :: vs)) d = atoi (last (v :: vs) []).
Proof.
  revert v. induction vs as [| u vs IH]; intros v; [reflexivity |].
  change (last (map atoi (u :: vs)) d = atoi (last (u :: vs) [])). apply IH.
Qed.

(** ** The path of the store *)

Lemma db_path_bounded home : (List.length (db_path_of home) <= 1023)%nat.
Proof.
  unfold db_path_of, snprintf, MAX_PATH. rewrite length_firstn.
  simpl Nat.sub. lia.
Qed.

Lemma db_path_whole home :
  (List.length (c_str home ++ DB_SUFFIX) <= 1023)%nat ->
  db_path_of home = c_str home ++ DB_SUFFIX.
Proof. intros H. unfold db_path_of, snprintf, MAX_PATH. now apply firstn_all2. Qed.

(** ** Sample runs *)

(** The default invocation on a store with one matching row. *)
Example default_invocation_sample :
  run (world_of [StepRow row_hello]) [str "imessage-reader"]
  = mkResult 0
      (str "[{" ++ quoted "guid" ++ str ":" ++ quoted "A1B2"
       ++ str "," ++ quoted "text" ++ str ":" ++ quoted "jarvis: turn on lights"
       ++ str "," ++ quoted "date_local" ++ str ":" ++ quoted "2024-05-01 10:00:00"
       ++ str "}]" ++ [NL])
      []
      [CallOpen (str "/Users/me/Library/Messages/chat.db") SQLITE_OPEN_READONLY;
       CallPrepare SQL_QUERY; CallBindInt 1 20;
       CallStep; CallStep; CallFinalize; CallClose].
Proof. reflexivity. Qed.

(** A text with a quote, a backslash, a newline and the byte 0x01. *)
Example escape_then_parse_sample :
  let text := str "say " ++ [DQUOTE] ++ str "hi" ++ [DQUOTE; BACKSLASH; NL; "001"%char] in
  p_stdout (snd (print_json_string (Some text) proc0))
  = [DQUOTE] ++ str "say " ++ [BACKSLASH; DQUOTE] ++ str "hi" ++ [BACKSLASH; DQUOTE]
    ++ [BACKSLASH; BACKSLASH] ++ [BACKSLASH] ++ str "n"
    ++ [BACKSLASH] ++ str "u0001" ++ [DQUOTE]
  /\ json_parse (p_stdout (snd (print_json_string (Some text) proc0)))
     = Some (JString text).
Proof. split; reflexivity. Qed.

(** An unknown argument: both diagnostics, status 1, nothing else. *)
Example unknown_argument_sample :
  run (world_of []) [str "imessage-reader"; str "--hours"]
  = mkResult 1 []
      (str "Error: unknown argument '--hours'" ++ [NL]
       ++ str "Usage: imessage-reader [--minutes N]" ++ [NL])
      [].
Proof. reflexivity. Qed.

(** * The claims *)

(** C1 (as amended).  The value after [--minutes] is read with [atoi].
    (i) A decimal numeral whose value lies in the range of [int] is read
    as that value, and a text that does not start with a number is read
    as 0.  (ii) When the flag is reached by the parser (only accepted
    pairs of the flag and a value precede it) and [atoi] of the value is
    positive, the value is accepted and becomes the lookback value with
    which parsing goes on; when nothing follows, it is the value bound to
    the query.  (iii) Whenever the argument list contains [--minutes]
    directly followed by a value whose [atoi] is not positive, the process
    exits with status 1, nothing is written to standard output and the
    store is never opened. *)
Theorem minutes_value_checked :
  (forall v,
      is_numeral v = true ->
      INT_MIN <= numeral_value v <= INT_MAX ->
      atoi v = numeral_value v)
  /\ (forall v, has_numeric_prefix v = false -> atoi v = 0)
  /\ (forall prog pre v rest m0,
      Forall (fun u => 0 < atoi u) pre ->
      0 < atoi v ->
      parse_args prog (minutes_args pre ++ FLAG_MINUTES :: v :: rest) m0
      = parse_args prog rest (atoi v))
  /\ (forall w prog pre v home,
      Forall (fun u => 0 < atoi u) pre ->
      0 < atoi v ->
      home_dir w = Some home ->
      w_open w (db_path_of home) = SQLITE_OK ->
      w_prepare w SQL_QUERY = SQLITE_OK ->
      exists c,
        engine_calls (run w (prog :: minutes_args pre ++ [FLAG_MINUTES; v]))
        = CallOpen (db_path_of home) SQLITE_OPEN_READONLY
          :: CallPrepare SQL_QUERY :: CallBindInt 1 (atoi v) :: c)
  /\ (forall w prog args i v,
      nth_error args i = Some FLAG_MINUTES ->
      nth_error args (S i) = Some v ->
      atoi v <= 0 ->
      exit_status (run w (prog :: args)) = 1
      /\ stdout (run w (prog :: args)) = []
      /\ engine_calls (run w (prog :: args)) = []).
Proof.
  split; [exact atoi_numeral |].
  split; [exact atoi_no_numeric_prefix |].
  split; [intros; now apply parse_args_accept |].
  split.
  - intros w prog pre v home Hpre Hv Hhome Hopen Hprep.
    apply run_calls_bind; try assumption.
    cbn [hd tl]. now rewrite parse_args_accept.
  - intros w prog args i v Hi Hv Hle.
    destruct (proj1 (parse_args_reject prog args) i v DEFAULT_MINUTES Hi Hv Hle)
      as [e He].
    rewrite (run_parse_exit w (prog :: args) 1 e He). now repeat split.
Qed.

Lemma minutes_value_checked_witness :
  atoi (str "45") = 45
  /\ atoi (str "abc") = 0
  /\ parse_args (str "imessage-reader")
       (minutes_args [str "5"] ++ FLAG_MINUTES :: str "45" :: []) DEFAULT_MINUTES
     = parse_args (str "imessage-reader") [] (atoi (str "45"))
  /\ (exists c,
        engine_calls (run (world_of [])
                          (str "imessage-reader"
                           :: minutes_args [str "5"] ++ [FLAG_MINUTES; str "45"]))
        = CallOpen (db_path_of (str "/Users/me")) SQLITE_OPEN_READONLY
          :: CallPrepare SQL_QUERY :: CallBindInt 1 (atoi (str "45")) :: c)
  /\ exit_status (run (world_of [])
                      [str "imessage-reader"; FLAG_MINUTES; str "abc"]) = 1
  /\ stdout (run (world_of [])
                 [str "imessage-reader"; FLAG_MINUTES; str "abc"]) = [].
Proof.
  destruct minutes_value_checked as (Hnum & Hnon & Hacc & Hbind & Hrej).
  split; [apply (Hnum (str "45")); [reflexivity | vm_compute; split; discriminate] |].
  split; [apply (Hnon (str "abc")); reflexivity |].
  split; [apply (Hacc (str "imessage-reader") [str "5"] (str "45") [] DEFAULT_MINUTES);
          [repeat constructor | reflexivity] |].
  split; [apply (Hbind (world_of []) (str "imessage-reader") [str "5"] (str "45")
                   (str "/Users/me"));
          [repeat constructor | reflexivity ..] |].
  destruct (Hrej (world_of []) (str "imessage-reader") [FLAG_MINUTES; str "abc"]
              0%nat (str "abc"))
    as (Hst & Hout & _); [reflexivity | reflexivity | vm_compute; discriminate |].
  split; assumption.
Defined.

(** C1 as stated fails in both halves.  ["5x"] is not a numeral, yet
    [--minutes 5x] is accepted: with an empty result set the process
    prints the empty array and exits with status 0.  ["5"] denotes a positive
    integer, yet in [--minutes 5 extra] it is never used: the process
    exits with status 1 before the store is opened. *)
Lemma minutes_claim_counterexample :
  (is_numeral (str "5x") = false
   /\ exit_status (run (world_of []) [str "imessage-reader"; FLAG_MINUTES; str "5x"]) = 0
   /\ stdout (run (world_of []) [str "imessage-reader"; FLAG_MINUTES; str "5x"])
      = str "[]" ++ [NL])
  /\ (is_numeral (str "5") = true
      /\ numeral_value (str "5") = 5
      /\ exit_status (run (world_of [])
                          [str "imessage-reader"; FLAG_MINUTES; str "5"; str "extra"]) = 1
      /\ engine_calls (run (world_of [])
                           [str "imessage-reader"; FLAG_MINUTES; str "5"; str "extra"]) = []).
Proof. vm_compute. repeat split. Qed.

(** C2.  For every input string, [print_json_string] writes a double
    quote, then for each byte before the terminating NUL its image under
    the escape table [json_escape_char] (two-character escapes for the
    seven named characters, [\u00XX] for the other characters below 0x20,
    the byte itself otherwise), then a double quote; it writes nothing
    else and returns.  In the table the digits of every escape are
    written out, and each six-byte escape is a backslash, [u] and four
    hexadecimal digits whose value is the code of the escaped byte. *)
Theorem print_json_string_escapes (s : bytes) :
  returns (print_json_string (Some s)) tt
          (DQUOTE :: flat_map json_escape_char (c_str s) ++ [DQUOTE]) [] []
  /\ forall c,
       match json_escape_char c with
       | [b; u; d1; d2; d3; d4] =>
           b = BACKSLASH /\ u = "u"%char
           /\ hex4_value d1 d2 d3 d4 = Some (code c)
           /\ (code c <? 32) = true
       | [b; e] => b = BACKSLASH /\ json_unescape e = Some c
       | [c'] => c' = c /\ (32 <=? code c) = true
       | _ => False
       end.
Proof.
  split; [exact (print_json_string_returns (Some s)) |].
  intros c. destruct c as [[] [] [] [] [] [] [] []]; vm_compute; repeat split.
Qed.

(** C3.  When the execution reaches the row loop and the statement yields
    the rows [rows] and then completes, the exit status is 0 and standard
    output is an opening bracket, the objects of the rows separated by
    single commas, a closing bracket and a newline; the JSON reader
    accepts it as the array of the rows' objects, each with the keys guid,
    text, date_local in that order; with no rows it is exactly the two
    brackets and a newline. *)
Theorem stdout_is_json_array w argv minutes rows :
  reaches_query w argv minutes ->
  w_steps w minutes = map StepRow rows ->
  exit_status (run w argv) = 0
  /\ stdout (run w argv) = json_array_text rows
  /\ json_parse (stdout (run w argv)) = Some (JArray (map json_of_row rows))
  /\ (rows = [] -> stdout (run w argv) = str "[]" ++ [NL]).
Proof.
  intros Hq Hsteps.
  destruct (run_query w argv minutes rows [] Hq) as (home & _ & Hrun);
    [now rewrite app_nil_r | discriminate |].
  rewrite Hrun. cbn [loop_exit exit_status stdout].
  repeat split.
  - apply json_parse_array_text.
  - now intros ->.
Qed.

Lemma stdout_is_json_array_witness :
  exit_status (run (world_of (map StepRow [row_hello; row_nulls]))
                   [str "imessage-reader"]) = 0
  /\ json_parse (stdout (run (world_of (map StepRow [row_hello; row_nulls]))
                             [str "imessage-reader"]))
     = Some (JArray (map json_of_row [row_hello; row_nulls])).
Proof.
  destruct (stdout_is_json_array (world_of (map StepRow [row_hello; row_nulls]))
              [str "imessage-reader"] 20 [row_hello; row_nulls])
    as (Hst & _ & Hjson & _).
  - unfold reaches_query. repeat split; try reflexivity.
    exists (str "/Users/me"). split; reflexivity.
  - reflexivity.
  - split; assumption.
Defined.




(** C5.  A NULL pointer is written as two double-quote bytes, which read
    back as the empty JSON string and not as null; hence the object the
    row loop writes for a row carries the empty string literal for each
    NULL column. *)
Theorem null_field_is_empty_string :
  returns (print_json_string None) tt [DQUOTE; DQUOTE] [] []
  /\ json_parse [DQUOTE; DQUOTE] = Some (JString [])
  /\ json_parse [DQUOTE; DQUOTE] <> Some JNull
  /\ (forall t d k,
         returns (step_loop [StepRow (mkRow None t d)] k) SQLITE_DONE
                 ((if k >? 0 then str "," else [])
                  ++ KEY_GUID ++ [DQUOTE; DQUOTE]
                  ++ KEY_TEXT ++ json_string_literal t
                  ++ KEY_DATE ++ json_string_literal d ++ str "}")
                 [] [CallStep; CallStep])
  /\ (forall g d k,
         returns (step_loop [StepRow (mkRow g None d)] k) SQLITE_DONE
                 ((if k >? 0 then str "," else [])
                  ++ KEY_GUID ++ json_string_literal g
                  ++ KEY_TEXT ++ [DQUOTE; DQUOTE]
                  ++ KEY_DATE ++ json_string_literal d ++ str "}")
                 [] [CallStep; CallStep])
  /\ (forall g t k,
         returns (step_loop [StepRow (mkRow g t None)] k) SQLITE_DONE
                 ((if k >? 0 then str "," else [])
                  ++ KEY_GUID ++ json_string_literal g
                  ++ KEY_TEXT ++ json_string_literal t
                  ++ KEY_DATE ++ [DQUOTE; DQUOTE] ++ str "}")
                 [] [CallStep; CallStep]).
Proof.
  assert (Hrow : forall r k,
             returns (step_loop [StepRow r] k) SQLITE_DONE
                     ((if k >? 0 then str "," else []) ++ json_object_text r)
                     [] [CallStep; CallStep]).
  { intros r k.
    pose proof (step_loop_returns [r] [] k) as H.
    cbn [map loop_exit loop_text List.length repeat] in H.
    rewrite !app_nil_r in H. apply H. discriminate. }
  split; [exact (print_json_string_returns None) |].
  split; [reflexivity |].
  split; [discriminate |].
  repeat split; intros; apply Hrow.
Qed.

(** C6.  When the execution reaches the row loop and, after the rows
    [rows], [sqlite3_step] reports a result code that is neither
    [SQLITE_ROW] nor [SQLITE_DONE], the process writes the diagnostic
    [Error: query execution failed: ...] to standard error and exits with
    status 1. *)
Theorem fetch_error_exit_status w argv minutes rows rc more :
  reaches_query w argv minutes ->
  w_steps w minutes = map StepRow rows ++ StepRc rc :: more ->
  rc <> SQLITE_ROW ->
  rc <> SQLITE_DONE ->
  exit_status (run w argv) = 1
  /\ exit_status (run w argv) <> 0
  /\ stderr (run w argv)
     = str "Error: query execution failed: " ++ c_str (w_errmsg w rc) ++ [NL].
Proof.
  intros Hq Hsteps Hrow Hdone.
  destruct (run_query w argv minutes rows (StepRc rc :: more) Hq Hsteps Hrow)
    as (home & _ & Hrun).
  rewrite Hrun. cbn [loop_exit step_rc exit_status stderr].
  apply Z.eqb_neq in Hdone. rewrite Hdone.
  repeat split. discriminate.
Qed.

Lemma fetch_error_exit_status_witness :
  exit_status (run (world_of [StepRow row_hello; StepRc SQLITE_IOERR])
                   [str "imessage-reader"]) = 1
  /\ stderr (run (world_of [StepRow row_hello; StepRc SQLITE_IOERR])
                 [str "imessage-reader"])
     = str "Error: query execution failed: disk I/O error" ++ [NL].
Proof.
  destruct (fetch_error_exit_status
              (world_of [StepRow row_hello; StepRc SQLITE_IOERR])
              [str "imessage-reader"] 20 [row_hello] SQLITE_IOERR [])
    as (Hst & _ & Herr).
  - unfold reaches_query. repeat split; try reflexivity.
    exists (str "/Users/me"). split; reflexivity.
  - reflexivity.
  - discriminate.
  - discriminate.
  - split; [exact Hst | exact Herr].
Defined.

(** C7.  For every input string, what [print_json_string] writes is a
    JSON string literal, and the JSON reader decodes it to the bytes of the
    input before its terminating NUL; this holds in particular for inputs
    containing a double quote, a backslash, a newline and the byte 0x01. *)
Theorem json_string_roundtrip (s : bytes) :
  json_parse (p_stdout (snd (print_json_string (Some s) proc0)))
  = Some (JString (c_str s)).
Proof.
  rewrite (print_json_string_returns (Some s) proc0).
  cbn [snd after p_stdout proc0 app].
  unfold json_parse.
  rewrite <- (app_nil_r (json_string_literal (Some s))) at 2.
  rewrite json_value_literal. reflexivity.
Qed.

(** C8.  When a row fetch fails after the rows [rows], the closing
    bracket and the newline have been written all the same: standard
    output is the complete array of the rows fetched so far, which the
    JSON reader accepts, and the exit status is 1. *)
Theorem fetch_error_closes_array w argv minutes rows rc more :
  reaches_query w argv minutes ->
  w_steps w minutes = map StepRow rows ++ StepRc rc :: more ->
  rc <> SQLITE_ROW ->
  rc <> SQLITE_DONE ->
  stdout (run w argv) = json_array_text rows
  /\ json_parse (stdout (run w argv)) = Some (JArray (map json_of_row rows))
  /\ exit_status (run w argv) = 1.
Proof.
  intros Hq Hsteps Hrow Hdone.
  destruct (run_query w argv minutes rows (StepRc rc :: more) Hq Hsteps Hrow)
    as (home & _ & Hrun).
  rewrite Hrun. cbn [loop_exit step_rc exit_status stdout].
  apply Z.eqb_neq in Hdone. rewrite Hdone.
  repeat split. apply json_parse_array_text.
Qed.

Lemma fetch_error_closes_array_witness :
  stdout (run (world_of [StepRow row_hello; StepRow row_nulls; StepRc SQLITE_IOERR])
              [str "imessage-reader"; FLAG_MINUTES; str "30"])
  = json_array_text [row_hello; row_nulls]
  /\ exit_status (run (world_of [StepRow row_hello; StepRow row_nulls;
                                 StepRc SQLITE_IOERR])
                      [str "imessage-reader"; FLAG_MINUTES; str "30"]) = 1.
Proof.
  destruct (fetch_error_closes_array
              (world_of [StepRow row_hello; StepRow row_nulls; StepRc SQLITE_IOERR])
              [str "imessage-reader"; FLAG_MINUTES; str "30"] 30
              [row_hello; row_nulls] SQLITE_IOERR [])
    as (Hout & _ & Hst).
  - unfold reaches_query. repeat split; try reflexivity.
    exists (str "/Users/me"). split; reflexivity.
  - reflexivity.
  - discriminate.
  - discriminate.
  - split; [exact Hout | exact Hst].
Defined.

(** Repetitions of the flag in terms of [atoi]: when [atoi] reads a
    positive value from each [N], the parser returns the last of them and
    that is the value bound to the query. *)
Lemma repeated_minutes_atoi prog (vs : list bytes) :
  vs <> [] ->
  Forall (fun v => 0 < atoi v) vs ->
  parse_args prog (minutes_args vs) DEFAULT_MINUTES = ret (atoi (last vs []))
  /\ forall w home,
       home_dir w = Some home ->
       w_open w (db_path_of home) = SQLITE_OK ->
       w_prepare w SQL_QUERY = SQLITE_OK ->
       exists c,
         engine_calls (run w (prog :: minutes_args vs))
         = CallOpen (db_path_of home) SQLITE_OPEN_READONLY
           :: CallPrepare SQL_QUERY :: CallBindInt 1 (atoi (last vs [])) :: c.
Proof.
  intros Hne Hpos.
  assert (Hparse : parse_args prog (minutes_args vs) DEFAULT_MINUTES
                   = ret (atoi (last vs []))).
  { rewrite parse_args_repeated by assumption.
    destruct vs as [| v vs]; [contradiction |].
    now rewrite last_map_atoi. }
  split; [exact Hparse |].
  intros w home Hhome Hopen Hprep.
  apply run_calls_bind; try assumption.
  cbn [hd tl]. now rewrite Hparse.
Qed.

(** [atoi] and the integer prefix. *)

Lemma drop_spaces_skip_space s : drop_spaces s = skip_space s.
Proof.
  induction s as [| c s IH]; [reflexivity |].
  simpl. now rewrite IH.
Qed.

Lemma digits_value_leading s : forall acc,
  digits_value acc s = decimal_value acc (leading_digits s).
Proof.
  induction s as [| c s IH]; intros acc; [reflexivity |].
  simpl. destruct (isdigit c); [apply IH | reflexivity].
Qed.

Lemma unsigned_prefix_value s n :
  unsigned_prefix s = Some n -> digits_value 0 s = n.
Proof.
  unfold unsigned_prefix. rewrite digits_value_leading.
  destruct (leading_digits s); [discriminate |]. now intros [= <-].
Qed.

Lemma strtol10_integer_prefix v n :
  integer_prefix v = Some n -> strtol10 v = clamp_long n.
Proof.
  unfold integer_prefix, strtol10. rewrite drop_spaces_skip_space.
  destruct (skip_space v) as [| c s]; [discriminate |].
  destruct (Ascii.eqb c "-"%char).
  - destruct (unsigned_prefix s) as [u |] eqn:Hu; [| discriminate].
    intros [= <-]. now rewrite (unsigned_prefix_value s u Hu).
  - destruct (Ascii.eqb c "+"%char); intros Hu;
      now rewrite (unsigned_prefix_value _ n Hu).
Qed.

Lemma atoi_integer_prefix v n :
  integer_prefix v = Some n -> INT_MIN <= n <= INT_MAX -> atoi v = n.
Proof.
  intros Hp Hrange. unfold atoi. rewrite (strtol10_integer_prefix v n Hp).
  unfold clamp_long, to_int, LONG_MIN, LONG_MAX, INT_MIN, INT_MAX in *.
  rewrite Z.min_r, Z.max_r by lia.
  rewrite Z.mod_small by lia. lia.
Qed.

Lemma positive_prefixes_atoi (vs : list bytes) :
  Forall (fun v => exists n, integer_prefix v = Some n /\ 0 < n <= INT_MAX) vs ->
  Forall (fun v => 0 < atoi v) vs.
Proof.
  intros H. induction H as [| v vs (n & Hn & Hrange) _ IH]; constructor;
    [| exact IH].
  rewrite (atoi_integer_prefix v n Hn); unfold INT_MIN, INT_MAX in *; lia.
Qed.

(** C9 (as amended).  For every argument list made of one or more
    repetitions of [--minutes N] in which the integer prefix of each [N]
    has a value from 1 to 2147483647, the parser returns without writing
    or exiting, and the lookback value it returns, which is the one bound
    to the query, is the value of the integer prefix of the last
    repetition. *)
Theorem repeated_minutes_last_wins prog (vs : list bytes) :
  vs <> [] ->
  Forall (fun v => exists n, integer_prefix v = Some n /\ 0 < n <= INT_MAX) vs ->
  exists n,
    integer_prefix (last vs []) = Some n
    /\ 0 < n <= INT_MAX
    /\ parse_args prog (minutes_args vs) DEFAULT_MINUTES = ret n
    /\ forall w home,
         home_dir w = Some home ->
         w_open w (db_path_of home) = SQLITE_OK ->
         w_prepare w SQL_QUERY = SQLITE_OK ->
         exists c,
           engine_calls (run w (prog :: minutes_args vs))
           = CallOpen (db_path_of home) SQLITE_OPEN_READONLY
             :: CallPrepare SQL_QUERY :: CallBindInt 1 n :: c.
Proof.
  intros Hne Hpre.
  assert (Hlast : exists n, integer_prefix (last vs []) = Some n
                            /\ 0 < n <= INT_MAX).
  { destruct vs as [| v0 vs]; [contradiction |].
    apply (proj1 (Forall_forall _ _) Hpre).
    clear Hpre Hne. revert v0.
    induction vs as [| v1 vs IH]; intros v0; [now left |].
    right. apply (IH v1). }
  destruct Hlast as (n & Hn & Hrange).
  destruct (repeated_minutes_atoi prog vs Hne (positive_prefixes_atoi vs Hpre))
    as [Hparse Hbind].
  assert (Hatoi : atoi (last vs []) = n)
    by (apply atoi_integer_prefix; [exact Hn | unfold INT_MIN, INT_MAX in *; lia]).
  rewrite Hatoi in Hparse, Hbind.
  exists n. repeat split; try assumption; apply Hrange.
Qed.

Lemma repeated_minutes_last_wins_witness :
  exists n,
    integer_prefix (last [str "5"; str "90"; str " +12abc"] []) = Some n
    /\ n = 12
    /\ parse_args (str "imessage-reader")
                  (minutes_args [str "5"; str "90"; str " +12abc"]) DEFAULT_MINUTES
       = ret n.
Proof.
  destruct (repeated_minutes_last_wins (str "imessage-reader")
              [str "5"; str "90"; str " +12abc"])
    as (n & Hn & _ & Hparse & _).
  - discriminate.
  - repeat (apply Forall_cons || apply Forall_nil).
    + exists 5. split; [reflexivity | vm_compute; split; [reflexivity | discriminate]].
    + exists 90. split; [reflexivity | vm_compute; split; [reflexivity | discriminate]].
    + exists 12. split; [reflexivity | vm_compute; split; [reflexivity | discriminate]].
  - exists n. split; [exact Hn |]. split; [| exact Hparse].
    vm_compute in Hn. now injection Hn.
Defined.

(** C9 as stated fails when the prefix is outside the range of [int].
    The integer prefix of [2147483648] is positive, yet
    [--minutes 5 --minutes 2147483648] is refused: [atoi] yields
    -2147483648 and the process exits with status 1 without output.  The
    integer prefix of [4294967297] is positive and the list is accepted,
    but the lookback value used is 1. *)
Lemma repeated_minutes_counterexample :
  (integer_prefix (str "5") = Some 5
   /\ integer_prefix (str "2147483648") = Some 2147483648
   /\ atoi (str "2147483648") = -2147483648
   /\ run (world_of [])
          (str "imessage-reader" :: minutes_args [str "5"; str "2147483648"])
      = mkResult 1 []
          (str "Error: minutes must be a positive integer" ++ [NL]) [])
  /\ (integer_prefix (str "4294967297") = Some 4294967297
      /\ engine_calls
           (run (world_of [])
                (str "imessage-reader" :: minutes_args [str "5"; str "4294967297"]))
         = [CallOpen (str "/Users/me/Library/Messages/chat.db") SQLITE_OPEN_READONLY;
            CallPrepare SQL_QUERY; CallBindInt 1 1;
            CallStep; CallFinalize; CallClose]).
Proof. vm_compute. repeat split. Qed.

(** C10.  The path of the store is the first 1023 bytes of the home
    directory followed by [/Library/Messages/chat.db], so it always fits
    the 1024-byte buffer with its terminator.  When the full text is
    longer than 1023 bytes, the path is cut to exactly 1023 bytes, nothing
    is reported about it, and the first thing the program does next is to
    ask the engine to open the cut path: if the engine refuses, the only
    diagnostic is the engine's, about that path; if it accepts and the
    query yields no row, the run ends with status 0. *)
Theorem db_path_truncated_silently w argv minutes home :
  parse_args (hd [] argv) (tl argv) DEFAULT_MINUTES proc0 = (Done minutes, proc0) ->
  home_dir w = Some home ->
  (1023 < List.length (c_str home ++ DB_SUFFIX))%nat ->
  (forall h, (List.length (db_path_of h) <= 1023)%nat)
  /\ db_path_of home = firstn 1023 (c_str home ++ DB_SUFFIX)
  /\ List.length (db_path_of home) = 1023%nat
  /\ db_path_of home <> c_str home ++ DB_SUFFIX
  /\ (exists c, engine_calls (run w argv)
                = CallOpen (db_path_of home) SQLITE_OPEN_READONLY :: c)
  /\ (w_open w (db_path_of home) <> SQLITE_OK ->
      run w argv
      = mkResult 1 []
          (str "Error: cannot open " ++ db_path_of home ++ str ": "
           ++ c_str (w_errmsg w (w_open w (db_path_of home))) ++ [NL])
          [CallOpen (db_path_of home) SQLITE_OPEN_READONLY; CallClose])
  /\ (w_open w (db_path_of home) = SQLITE_OK ->
      w_prepare w SQL_QUERY = SQLITE_OK ->
      w_bind_int w minutes = SQLITE_OK ->
      w_steps w minutes = [] ->
      exit_status (run w argv) = 0 /\ stderr (run w argv) = []).
Proof.
  intros Hargs Hhome Hlen.
  assert (Hcut : List.length (db_path_of home) = 1023%nat).
  { unfold db_path_of, snprintf, MAX_PATH. rewrite length_firstn. simpl Nat.sub. lia. }
  split; [exact db_path_bounded |].
  split; [reflexivity |].
  split; [exact Hcut |].
  split; [intros Heq; rewrite Heq in Hcut; lia |].
  split; [now apply (run_calls_open w argv minutes home) |].
  split; [now apply (run_open_fails w argv minutes home) |].
  intros Hopen Hprep Hbind Hsteps.
  destruct (run_query w argv minutes [] []) as (h & _ & Hrun).
  - unfold reaches_query. repeat split; try assumption. now exists home.
  - exact Hsteps.
  - discriminate.
  - rewrite Hrun. split; reflexivity.
Qed.

Lemma db_path_truncated_silently_witness :
  List.length (db_path_of long_home) = 1023%nat
  /\ (exists c, engine_calls (run world_long_home [str "imessage-reader"])
                = CallOpen (db_path_of long_home) SQLITE_OPEN_READONLY :: c)
  /\ exit_status (run world_long_home [str "imessage-reader"]) = 0.
Proof.
  destruct (db_path_truncated_silently world_long_home [str "imessage-reader"]
              20 long_home)
    as (_ & _ & Hlen & _ & Hcalls & _ & Hok).
  - reflexivity.
  - reflexivity.
  - vm_compute. lia.
  - split; [exact Hlen |]. split; [exact Hcalls |].
    exact (proj1 (Hok eq_refl eq_refl eq_refl eq_refl)).
Defined.

(** * Further properties *)

(** ** Every outcome of the argument parser *)

Lemma parse_args_outcome prog args :
  (forall m0,
      (exists m, parse_args prog args m0 = ret m
                 /\ (0 < m0 <= INT_MAX -> 0 < m <= INT_MAX))
      \/ (exists e, e <> [] /\ exits (parse_args prog args m0) 1 [] e []))
  /\ (forall a m0,
      (exists m, parse_args prog (a :: args) m0 = ret m
                 /\ (0 < m0 <= INT_MAX -> 0 < m <= INT_MAX))
      \/ (exists e, e <> [] /\ exits (parse_args prog (a :: args) m0) 1 [] e [])).
Proof.
  assert (Husage : forall e0, e0 <> [] ->
             exists e, e <> [] /\ exits (err e0 ;; @usage Z prog) 1 [] e []).
  { intros e0 He0. eexists. split; [| unfold usage;
      eapply exits_eq; [exits_chain; apply exits_exit | reflexivity ..]].
    destruct e0; [contradiction | discriminate]. }
  induction args as [| b args [IH0 IH1]].
  - split.
    + intros m0. left. exists m0. now split.
    + intros a m0. right. cbn [parse_args].
      destruct (strcmp_eq a FLAG_MINUTES); apply Husage; discriminate.
  - split; [apply IH1 |].
    intros a m0. cbn [parse_args].
    destruct (strcmp_eq a FLAG_MINUTES); [| right; apply Husage; discriminate].
    destruct (Z.leb_spec (atoi b) 0) as [Hb | Hb].
    + right. eexists. split;
        [| eapply exits_eq; [exits_chain; apply exits_exit | reflexivity ..]].
      discriminate.
    + destruct (IH0 (atoi b)) as [(m & Hm & Hpos) | Hex]; [left | now right].
      exists m. split; [exact Hm |]. intros _. apply Hpos.
      pose proof (atoi_int_range b). lia.
Qed.

Lemma accepted_args_spec prog args :
  (forall m0, accepted_args args = true <->
              exists m, parse_args prog args m0 = ret m)
  /\ (forall a m0, accepted_args (a :: args) = true <->
                   exists m, parse_args prog (a :: args) m0 = ret m).
Proof.
  assert (Hno : forall (m : M Z) e st v,
             exits m st [] e [] -> m = ret v -> False).
  { intros m e st v Hex Heq. specialize (Hex proc0). rewrite Heq in Hex.
    discriminate Hex. }
  induction args as [| b args [IH0 IH1]].
  - split.
    + intros m0. split; [now exists m0 | reflexivity].
    + intros a m0. cbn [accepted_args parse_args].
      destruct (strcmp_eq a FLAG_MINUTES); cbn [andb];
        (split; [discriminate |]); intros [m Hm]; exfalso;
        destruct (usage_exits prog (str "Error: --minutes requires a value" ++ [NL]))
          as [e1 He1];
        destruct (usage_exits prog
                    (str "Error: unknown argument '" ++ c_str a ++ str "'" ++ [NL]))
          as [e2 He2];
        eauto.
  - split; [apply IH1 |].
    intros a m0. cbn [accepted_args parse_args].
    destruct (strcmp_eq a FLAG_MINUTES); cbn [andb].
    + destruct (Z.leb_spec (atoi b) 0) as [Hb | Hb].
      * replace (0 <? atoi b) with false by (symmetry; apply Z.ltb_ge; lia).
        cbn [andb]. split; [discriminate |]. intros [m Hm]. exfalso.
        destruct (reject_exits
                    (str "Error: minutes must be a positive integer" ++ [NL]))
          as [e He]. eauto.
      * replace (0 <? atoi b) with true by (symmetry; apply Z.ltb_lt; lia).
        cbn [andb]. apply IH0.
    + split; [discriminate |]. intros [m Hm]. exfalso.
      destruct (usage_exits prog
                  (str "Error: unknown argument '" ++ c_str a ++ str "'" ++ [NL]))
        as [e He]. eauto.
Qed.

(** ** The row loop on any sequence of step results *)

Lemma final_rc_not_row steps : final_rc steps <> SQLITE_ROW.
Proof.
  induction steps as [| s steps IH]; [discriminate |].
  cbn [final_rc]. destruct (Z.eqb_spec (step_rc s) SQLITE_ROW); assumption.
Qed.

Lemma step_loop_general steps : forall k,
  returns (step_loop steps k) (final_rc steps)
          (loop_text k (fetched steps)) []
          (repeat CallStep (S (List.length (fetched steps)))).
Proof.
  induction steps as [| s steps IH]; intros k; cbn [step_loop fetched final_rc].
  - eapply returns_eq; [returns_chain; apply returns_ret | reflexivity ..].
  - destruct (step_rc s =? SQLITE_ROW).
    + eapply returns_eq.
      * eapply returns_bind; [returns_prim | cbv beta].
        eapply returns_bind; [apply separator_returns | cbv beta].
        returns_chain. apply (IH (k + 1)).
      * cbn [loop_text]. unfold json_object_text, row_of_step.
        cbn [col_guid col_text col_date_local].
        rewrite <- !app_assoc. reflexivity.
      * reflexivity.
      * reflexivity.
    + eapply returns_eq; [returns_chain; apply returns_ret | reflexivity ..].
Qed.

Lemma fetched_rows rows tail :
  loop_exit tail <> SQLITE_ROW ->
  fetched (map StepRow rows ++ tail) = rows
  /\ final_rc (map StepRow rows ++ tail) = loop_exit tail.
Proof.
  intros Hrc. induction rows as [| r rows [IHf IHr]].
  - destruct tail as [| s tail]; [now split |].
    cbn [map app fetched final_rc loop_exit] in *.
    apply Z.eqb_neq in Hrc. now rewrite Hrc.
  - cbn [map app fetched final_rc step_rc]. rewrite Z.eqb_refl.
    rewrite IHf, IHr. split; [| reflexivity].
    unfold row_of_step. cbn [column_text]. now destruct r.
Qed.

(** ** The other ways [main] ends *)

Lemma run_home_fails w argv minutes :
  parse_args (hd [] argv) (tl argv) DEFAULT_MINUTES proc0 = (Done minutes, proc0) ->
  home_dir w = None ->
  run w argv
  = mkResult 1 [] (str "Error: cannot determine home directory" ++ [NL]) [].
Proof.
  intros Hargs Hhome. unfold home_dir in Hhome.
  unfold run, main. unfold bind at 1. rewrite Hargs.
  destruct (w_getenv_HOME w) as [h |]; [discriminate |]. rewrite Hhome.
  reflexivity.
Qed.

Section RunOpened.

(** An execution that gets as far as an open store. *)
Variables (w : World) (argv : list bytes) (minutes : Z) (home : bytes).
Hypothesis Hargs :
  parse_args (hd [] argv) (tl argv) DEFAULT_MINUTES proc0 = (Done minutes, proc0).
Hypothesis Hhome : home_dir w = Some home.
Hypothesis Hopen : w_open w (db_path_of home) = SQLITE_OK.

Lemma run_prepare_fails :
  w_prepare w SQL_QUERY <> SQLITE_OK ->
  run w argv
  = mkResult 1 []
      (str "Error: SQL prepare failed: "
       ++ c_str (w_errmsg w (w_prepare w SQL_QUERY)) ++ [NL])
      [CallOpen (db_path_of home) SQLITE_OPEN_READONLY; CallPrepare SQL_QUERY;
       CallClose].
Proof.
  intros Hprep.
  unfold run, main. unfold bind at 1. rewrite Hargs.
  unfold bind at 1. rewrite (home_dir_resolves w home Hhome proc0), after_nil.
  fold (db_path_of home). rewrite Hopen.
  apply Z.eqb_neq in Hprep. rewrite Hprep. cbn [negb Z.eqb SQLITE_OK].
  match goal with
  | |- finish (?m proc0) = _ =>
      assert (H : exits m 1 []
                    (str "Error: SQL prepare failed: "
                     ++ c_str (w_errmsg w (w_prepare w SQL_QUERY)) ++ [NL])
                    [CallOpen (db_path_of home) SQLITE_OPEN_READONLY;
                     CallPrepare SQL_QUERY; CallClose])
        by (eapply exits_eq;
            [exits_chain; apply exits_exit
            | reflexivity | simpl; now rewrite app_nil_r | reflexivity]);
      rewrite (H proc0)
  end.
  reflexivity.
Qed.

Lemma run_bind_fails :
  w_prepare w SQL_QUERY = SQLITE_OK ->
  w_bind_int w minutes <> SQLITE_OK ->
  run w argv
  = mkResult 1 []
      (str "Error: bind failed: "
       ++ c_str (w_errmsg w (w_bind_int w minutes)) ++ [NL])
      [CallOpen (db_path_of home) SQLITE_OPEN_READONLY; CallPrepare SQL_QUERY;
       CallBindInt 1 minutes; CallFinalize; CallClose].
Proof.
  intros Hprep Hbind.
  unfold run, main. unfold bind at 1. rewrite Hargs.
  unfold bind at 1. rewrite (home_dir_resolves w home Hhome proc0), after_nil.
  fold (db_path_of home). rewrite Hopen, Hprep.
  apply Z.eqb_neq in Hbind. rewrite Hbind. cbn [negb Z.eqb SQLITE_OK].
  match goal with
  | |- finish (?m proc0) = _ =>
      assert (H : exits m 1 []
                    (str "Error: bind failed: "
                     ++ c_str (w_errmsg w (w_bind_int w minutes)) ++ [NL])
                    [CallOpen (db_path_of home) SQLITE_OPEN_READONLY;
                     CallPrepare SQL_QUERY; CallBindInt 1 minutes;
                     CallFinalize; CallClose])
        by (eapply exits_eq;
            [exits_chain; apply exits_exit
            | reflexivity | simpl; now rewrite app_nil_r | reflexivity]);
      rewrite (H proc0)
  end.
  reflexivity.
Qed.

(** Whatever the statement reports, step after step. *)
Lemma run_loop :
  w_prepare w SQL_QUERY = SQLITE_OK ->
  w_bind_int w minutes = SQLITE_OK ->
  run w argv
  = mkResult
      (if final_rc (w_steps w minutes) =? SQLITE_DONE then 0 else 1)
      (json_array_text (fetched (w_steps w minutes)))
      (if final_rc (w_steps w minutes) =? SQLITE_DONE then []
       else str "Error: query execution failed: "
            ++ c_str (w_errmsg w (final_rc (w_steps w minutes))) ++ [NL])
      ([CallOpen (db_path_of home) SQLITE_OPEN_READONLY;
        CallPrepare SQL_QUERY; CallBindInt 1 minutes]
       ++ repeat CallStep (S (List.length (fetched (w_steps w minutes))))
       ++ [CallFinalize; CallClose]).
Proof.
  intros Hprep Hbind.
  unfold run. rewrite (main_unfold w argv minutes home) by assumption.
  unfold bind at 1.
  rewrite (step_loop_general (w_steps w minutes) 0).
  rewrite loop_text_comma_separated.
  destruct (final_rc (w_steps w minutes) =? SQLITE_DONE); cbn [negb].
  - match goal with
    | |- context [?m (after ?p ?o ?e ?c)] =>
        assert (H : returns m 0 (str "]" ++ [NL]) [] [CallFinalize; CallClose])
          by (eapply returns_eq; [returns_chain; apply returns_ret | reflexivity ..]);
        rewrite (H (after p o e c))
    end.
    unfold finish, after, json_array_text. simpl. now rewrite <- ?app_assoc.
  - match goal with
    | |- context [?m (after ?p ?o ?e ?c)] =>
        assert (H : exits m 1 (str "]" ++ [NL])
                      (str "Error: query execution failed: "
                       ++ c_str (w_errmsg w (final_rc (w_steps w minutes))) ++ [NL])
                      [CallFinalize; CallClose])
          by (eapply exits_eq;
              [exits_chain; apply exits_exit
              | reflexivity | simpl; now rewrite app_nil_r | reflexivity]);
        rewrite (H (after p o e c))
    end.
    unfold finish, after, json_array_text. simpl. now rewrite <- ?app_assoc.
Qed.

End RunOpened.

(** ** Every run has one of six forms *)

Lemma run_has_shape w argv : run_shape (run w argv).
Proof.
  destruct (proj1 (parse_args_outcome (hd [] argv) (tl argv)) DEFAULT_MINUTES)
    as [(m & Hm & Hpos) | (e & Hne & He)].
  2: { rewrite (run_parse_exit w argv 1 e He). now constructor. }
  assert (Hrange : 0 < m <= INT_MAX) by (apply Hpos; vm_compute; split; [reflexivity | discriminate]).
  assert (Hargs : parse_args (hd [] argv) (tl argv) DEFAULT_MINUTES proc0
                  = (Done m, proc0)) by now rewrite Hm.
  destruct (home_dir w) as [home |] eqn:Hhome.
  2: { rewrite (run_home_fails w argv m Hargs Hhome). constructor. discriminate. }
  destruct (Z.eq_dec (w_open w (db_path_of home)) SQLITE_OK) as [Hopen | Hopen].
  2: { rewrite (run_open_fails w argv m home Hargs Hhome Hopen).
       constructor. discriminate. }
  destruct (Z.eq_dec (w_prepare w SQL_QUERY) SQLITE_OK) as [Hprep | Hprep].
  2: { rewrite (run_prepare_fails w argv m home Hargs Hhome Hopen Hprep).
       constructor. discriminate. }
  destruct (Z.eq_dec (w_bind_int w m) SQLITE_OK) as [Hbind | Hbind].
  2: { rewrite (run_bind_fails w argv m home Hargs Hhome Hopen Hprep Hbind).
       constructor; [assumption | discriminate]. }
  rewrite (run_loop w argv m home Hargs Hhome Hopen Hprep Hbind).
  destruct (final_rc (w_steps w m) =? SQLITE_DONE).
  - now constructor.
  - constructor; [assumption | discriminate].
Qed.

(** ** Usage errors and their diagnostics *)

Lemma parse_args_prefix prog pre : forall rest m0,
  Forall (fun u => 0 < atoi u) pre ->
  parse_args prog (minutes_args pre ++ rest) m0
  = parse_args prog rest (last (map atoi pre) m0).
Proof.
  induction pre as [| u pre IH]; intros rest m0 Hpre; [reflexivity |].
  inversion Hpre as [| ? ? Hu Hpre']; subst.
  cbn [minutes_args app]. rewrite parse_args_flag.
  destruct (Z.leb_spec (atoi u) 0); [lia |].
  rewrite IH by assumption.
  destruct pre as [| u' pre]; [reflexivity |].
  cbn [map]. now rewrite (last_nonempty_default (atoi u') _ (atoi u) m0).
Qed.

Lemma run_of_parse_exit w prog args e :
  exits (parse_args prog args DEFAULT_MINUTES) 1 [] e [] ->
  run w (prog :: args) = mkResult 1 [] e [].
Proof. intros H. now apply run_parse_exit. Qed.

(** X1.  When [--minutes] is the last argument, after any number of
    accepted pairs, the process writes the line [Error: --minutes requires
    a value] and the usage line to standard error and exits with status 1;
    nothing is written to standard output and the store is not opened. *)
Theorem minutes_without_value w prog pre :
  Forall (fun u => 0 < atoi u) pre ->
  run w (prog :: minutes_args pre ++ [FLAG_MINUTES])
  = mkResult 1 []
      (str "Error: --minutes requires a value" ++ [NL]
       ++ str "Usage: " ++ c_str prog ++ str " [--minutes N]" ++ [NL])
      [].
Proof.
  intros Hpre. apply run_of_parse_exit.
  rewrite parse_args_prefix by assumption.
  cbn [parse_args]. rewrite strcmp_flag. unfold usage.
  eapply exits_eq; [exits_chain; apply exits_exit | reflexivity | | reflexivity].
  simpl. rewrite <- ?app_assoc, ?app_nil_r. reflexivity.
Qed.

Lemma minutes_without_value_witness :
  run (world_of []) (str "imessage-reader"
                     :: minutes_args [str "5"] ++ [FLAG_MINUTES])
  = mkResult 1 []
      (str "Error: --minutes requires a value" ++ [NL]
       ++ str "Usage: imessage-reader [--minutes N]" ++ [NL])
      [].
Proof.
  apply (minutes_without_value (world_of []) (str "imessage-reader") [str "5"]).
  repeat constructor.
Defined.

(** X2.  The first argument that is not [--minutes], after any number of
    accepted pairs, ends the run: the process names it in
    [Error: unknown argument '...'], writes the usage line, and exits with
    status 1, whatever follows it; nothing is written to standard output
    and the store is not opened. *)
Theorem unknown_argument_rejected w prog pre a rest :
  Forall (fun u => 0 < atoi u) pre ->
  strcmp_eq a FLAG_MINUTES = false ->
  run w (prog :: minutes_args pre ++ a :: rest)
  = mkResult 1 []
      (str "Error: unknown argument '" ++ c_str a ++ str "'" ++ [NL]
       ++ str "Usage: " ++ c_str prog ++ str " [--minutes N]" ++ [NL])
      [].
Proof.
  intros Hpre Ha. apply run_of_parse_exit.
  rewrite parse_args_prefix by assumption.
  cbn [parse_args]. rewrite Ha. unfold usage.
  eapply exits_eq; [exits_chain; apply exits_exit | reflexivity | | reflexivity].
  simpl. rewrite <- ?app_assoc, ?app_nil_r. reflexivity.
Qed.

Lemma unknown_argument_rejected_witness :
  run (world_of []) (str "imessage-reader"
                     :: minutes_args [str "5"] ++ str "-v" :: [FLAG_MINUTES; str "0"])
  = mkResult 1 []
      (str "Error: unknown argument '-v'" ++ [NL]
       ++ str "Usage: imessage-reader [--minutes N]" ++ [NL])
      [].
Proof.
  apply (unknown_argument_rejected (world_of []) (str "imessage-reader")
           [str "5"] (str "-v") [FLAG_MINUTES; str "0"]).
  - repeat constructor.
  - reflexivity.
Defined.

(** X3.  A value after [--minutes] that [atoi] does not read as positive
    is reported by the single line
    [Error: minutes must be a positive integer]; unlike the other argument
    errors, no usage line follows.  The exit status is 1, standard output
    stays empty and the store is not opened. *)
Theorem nonpositive_minutes_diagnostic w prog pre v rest :
  Forall (fun u => 0 < atoi u) pre ->
  atoi v <= 0 ->
  run w (prog :: minutes_args pre ++ FLAG_MINUTES :: v :: rest)
  = mkResult 1 []
      (str "Error: minutes must be a positive integer" ++ [NL]) [].
Proof.
  intros Hpre Hv. apply run_of_parse_exit.
  rewrite parse_args_prefix by assumption.
  rewrite parse_args_flag.
  destruct (Z.leb_spec (atoi v) 0); [| lia].
  eapply exits_eq; [exits_chain; apply exits_exit | reflexivity | | reflexivity].
  simpl. rewrite <- ?app_assoc, ?app_nil_r. reflexivity.
Qed.

Lemma nonpositive_minutes_diagnostic_witness :
  run (world_of []) (str "imessage-reader"
                     :: minutes_args [str "5"] ++ FLAG_MINUTES :: str "-3" :: [str "junk"])
  = mkResult 1 []
      (str "Error: minutes must be a positive integer" ++ [NL]) [].
Proof.
  apply (nonpositive_minutes_diagnostic (world_of []) (str "imessage-reader")
           [str "5"] (str "-3") [str "junk"]).
  - repeat constructor.
  - vm_compute. discriminate.
Defined.

(** X4.  The parser accepts exactly the argument lists made of pairs of
    [--minutes] and a value that [atoi] reads as positive.  On those it
    returns a positive [int] without writing anything; on every other list
    it exits with status 1 after writing to standard error only. *)
Theorem parser_accepts_exactly prog args :
  (accepted_args args = true
   /\ exists m, parse_args prog args DEFAULT_MINUTES = ret m
                /\ 0 < m <= INT_MAX)
  \/ (accepted_args args = false
      /\ exists e, e <> []
                   /\ exits (parse_args prog args DEFAULT_MINUTES) 1 [] e []).
Proof.
  pose proof (proj1 (accepted_args_spec prog args) DEFAULT_MINUTES) as Hspec.
  destruct (proj1 (parse_args_outcome prog args) DEFAULT_MINUTES)
    as [(m & Hm & Hpos) | (e & Hne & He)].
  - left. split; [apply Hspec; now exists m |].
    exists m. split; [exact Hm |]. apply Hpos. vm_compute.
    split; [reflexivity | discriminate].
  - right. split; [| now exists e].
    destruct (accepted_args args) eqn:Hacc; [| reflexivity].
    destruct (proj1 Hspec eq_refl) as [m Hm].
    specialize (He proc0). rewrite Hm in He. discriminate He.
Qed.

(** ** Resolving the home directory and reaching the store *)

(** X5.  With accepted arguments, when [HOME] is not set and the password
    database has no entry for the user, the process writes
    [Error: cannot determine home directory] to standard error and exits
    with status 1 without calling the engine or writing to standard
    output. *)
Theorem home_directory_unknown w argv minutes :
  parse_args (hd [] argv) (tl argv) DEFAULT_MINUTES proc0 = (Done minutes, proc0) ->
  w_getenv_HOME w = None ->
  w_getpwuid_dir w = None ->
  run w argv
  = mkResult 1 [] (str "Error: cannot determine home directory" ++ [NL]) [].
Proof.
  intros Hargs Henv Hpw. apply (run_home_fails w argv minutes Hargs).
  unfold home_dir. now rewrite Henv.
Qed.

Lemma home_directory_unknown_witness :
  run (mkWorld None None (fun _ => SQLITE_OK) (fun _ => SQLITE_OK)
               (fun _ => SQLITE_OK) (fun _ => []) (fun _ => []))
      [str "imessage-reader"; FLAG_MINUTES; str "5"]
  = mkResult 1 [] (str "Error: cannot determine home directory" ++ [NL]) [].
Proof.
  apply (home_directory_unknown _ _ 5); reflexivity.
Defined.

(** X6.  The path that is opened comes from [HOME] whenever the variable
    is set, even to the empty string, and the password database is then
    not consulted; only when [HOME] is not set does the directory of the
    password entry take its place. *)
Theorem home_resolution_order w argv minutes :
  parse_args (hd [] argv) (tl argv) DEFAULT_MINUTES proc0 = (Done minutes, proc0) ->
  (forall h,
      w_getenv_HOME w = Some h ->
      exists c, engine_calls (run w argv)
                = CallOpen (snprintf MAX_PATH (c_str h ++ DB_SUFFIX))
                           SQLITE_OPEN_READONLY :: c)
  /\ (forall d,
      w_getenv_HOME w = None ->
      w_getpwuid_dir w = Some d ->
      exists c, engine_calls (run w argv)
                = CallOpen (snprintf MAX_PATH (c_str d ++ DB_SUFFIX))
                           SQLITE_OPEN_READONLY :: c).
Proof.
  intros Hargs. split.
  - intros h Henv. apply (run_calls_open w argv minutes h Hargs).
    unfold home_dir. now rewrite Henv.
  - intros d Henv Hpw. apply (run_calls_open w argv minutes d Hargs).
    unfold home_dir. now rewrite Henv.
Qed.

Lemma home_resolution_order_witness :
  (exists c,
      engine_calls (run (mkWorld (Some []) (Some (str "/Users/pw"))
                                 (fun _ => SQLITE_OK) (fun _ => SQLITE_OK)
                                 (fun _ => SQLITE_OK) (fun _ => []) (fun _ => []))
                        [str "imessage-reader"])
      = CallOpen (str "/Library/Messages/chat.db") SQLITE_OPEN_READONLY :: c)
  /\ (exists c,
      engine_calls (run (mkWorld None (Some (str "/Users/pw"))
                                 (fun _ => SQLITE_OK) (fun _ => SQLITE_OK)
                                 (fun _ => SQLITE_OK) (fun _ => []) (fun _ => []))
                        [str "imessage-reader"])
      = CallOpen (str "/Users/pw/Library/Messages/chat.db") SQLITE_OPEN_READONLY :: c).
Proof.
  split.
  - apply (proj1 (home_resolution_order
                    (mkWorld (Some []) (Some (str "/Users/pw"))
                             (fun _ => SQLITE_OK) (fun _ => SQLITE_OK)
                             (fun _ => SQLITE_OK) (fun _ => []) (fun _ => []))
                    [str "imessage-reader"] 20 eq_refl) [] eq_refl).
  - apply (proj2 (home_resolution_order
                    (mkWorld None (Some (str "/Users/pw"))
                             (fun _ => SQLITE_OK) (fun _ => SQLITE_OK)
                             (fun _ => SQLITE_OK) (fun _ => []) (fun _ => []))
                    [str "imessage-reader"] 20 eq_refl) (str "/Users/pw") eq_refl eq_refl).
Defined.

(** X7.  When the engine cannot open the store, the process reports
    [Error: cannot open], the path it tried and the engine's message on
    standard error, closes the connection handle and exits with status 1;
    standard output stays empty and no statement is prepared. *)
Theorem open_failure_reported w argv minutes home :
  parse_args (hd [] argv) (tl argv) DEFAULT_MINUTES proc0 = (Done minutes, proc0) ->
  home_dir w = Some home ->
  w_open w (db_path_of home) <> SQLITE_OK ->
  run w argv
  = mkResult 1 []
      (str "Error: cannot open " ++ db_path_of home ++ str ": "
       ++ c_str (w_errmsg w (w_open w (db_path_of home))) ++ [NL])
      [CallOpen (db_path_of home) SQLITE_OPEN_READONLY; CallClose].
Proof. exact (run_open_fails w argv minutes home). Qed.

Lemma open_failure_reported_witness :
  run (mkWorld (Some (str "/Users/me")) None (fun _ => 14) (fun _ => SQLITE_OK)
               (fun _ => SQLITE_OK) (fun _ => [])
               (fun _ => str "unable to open database file"))
      [str "imessage-reader"]
  = mkResult 1 []
      (str "Error: cannot open /Users/me/Library/Messages/chat.db: unable to open database file"
       ++ [NL])
      [CallOpen (str "/Users/me/Library/Messages/chat.db") SQLITE_OPEN_READONLY;
       CallClose].
Proof.
  apply (open_failure_reported
           (mkWorld (Some (str "/Users/me")) None (fun _ => 14) (fun _ => SQLITE_OK)
                    (fun _ => SQLITE_OK) (fun _ => [])
                    (fun _ => str "unable to open database file"))
           [str "imessage-reader"] 20 (str "/Users/me")).
  - reflexivity.
  - reflexivity.
  - discriminate.
Defined.

(** X8.  When the store opens but the query cannot be prepared, the
    process reports [Error: SQL prepare failed] with the engine's message,
    closes the connection without finalizing any statement, and exits with
    status 1 with standard output empty. *)
Theorem prepare_failure_reported w argv minutes home :
  parse_args (hd [] argv) (tl argv) DEFAULT_MINUTES proc0 = (Done minutes, proc0) ->
  home_dir w = Some home ->
  w_open w (db_path_of home) = SQLITE_OK ->
  w_prepare w SQL_QUERY <> SQLITE_OK ->
  run w argv
  = mkResult 1 []
      (str "Error: SQL prepare failed: "
       ++ c_str (w_errmsg w (w_prepare w SQL_QUERY)) ++ [NL])
      [CallOpen (db_path_of home) SQLITE_OPEN_READONLY; CallPrepare SQL_QUERY;
       CallClose].
Proof. exact (run_prepare_fails w argv minutes home). Qed.

Lemma prepare_failure_reported_witness :
  run (mkWorld (Some (str "/Users/me")) None (fun _ => SQLITE_OK) (fun _ => 1)
               (fun _ => SQLITE_OK) (fun _ => [])
               (fun _ => str "no such table: message"))
      [str "imessage-reader"]
  = mkResult 1 []
      (str "Error: SQL prepare failed: no such table: message" ++ [NL])
      [CallOpen (str "/Users/me/Library/Messages/chat.db") SQLITE_OPEN_READONLY;
       CallPrepare SQL_QUERY; CallClose].
Proof.
  apply (prepare_failure_reported
           (mkWorld (Some (str "/Users/me")) None (fun _ => SQLITE_OK) (fun _ => 1)
                    (fun _ => SQLITE_OK) (fun _ => [])
                    (fun _ => str "no such table: message"))
           [str "imessage-reader"] 20 (str "/Users/me")).
  - reflexivity.
  - reflexivity.
  - reflexivity.
  - discriminate.
Defined.

(** X9.  When binding the lookback value fails, the process reports
    [Error: bind failed] with the engine's message, finalizes the
    statement, closes the connection, and exits with status 1; the
    statement is never stepped and standard output stays empty. *)
Theorem bind_failure_reported w argv minutes home :
  parse_args (hd [] argv) (tl argv) DEFAULT_MINUTES proc0 = (Done minutes, proc0) ->
  home_dir w = Some home ->
  w_open w (db_path_of home) = SQLITE_OK ->
  w_prepare w SQL_QUERY = SQLITE_OK ->
  w_bind_int w minutes <> SQLITE_OK ->
  run w argv
  = mkResult 1 []
      (str "Error: bind failed: "
       ++ c_str (w_errmsg w (w_bind_int w minutes)) ++ [NL])
      [CallOpen (db_path_of home) SQLITE_OPEN_READONLY; CallPrepare SQL_QUERY;
       CallBindInt 1 minutes; CallFinalize; CallClose].
Proof. exact (run_bind_fails w argv minutes home). Qed.

Lemma bind_failure_reported_witness :
  run (mkWorld (Some (str "/Users/me")) None (fun _ => SQLITE_OK)
               (fun _ => SQLITE_OK) (fun _ => 25) (fun _ => [])
               (fun _ => str "column index out of range"))
      [str "imessage-reader"; FLAG_MINUTES; str "7"]
  = mkResult 1 []
      (str "Error: bind failed: column index out of range" ++ [NL])
      [CallOpen (str "/Users/me/Library/Messages/chat.db") SQLITE_OPEN_READONLY;
       CallPrepare SQL_QUERY; CallBindInt 1 7; CallFinalize; CallClose].
Proof.
  apply (bind_failure_reported
           (mkWorld (Some (str "/Users/me")) None (fun _ => SQLITE_OK)
                    (fun _ => SQLITE_OK) (fun _ => 25) (fun _ => [])
                    (fun _ => str "column index out of range"))
           [str "imessage-reader"; FLAG_MINUTES; str "7"] 7 (str "/Users/me")).
  - reflexivity.
  - reflexivity.
  - reflexivity.
  - reflexivity.
  - discriminate.
Defined.

(** ** What holds of every run *)

Lemma from_space_escape_char c : forallb from_space (json_escape_char c) = true.
Proof. destruct c as [[] [] [] [] [] [] [] []]; reflexivity. Qed.

Lemma from_space_escape s : forallb from_space (json_escape s) = true.
Proof.
  induction s as [| c s IH]; [reflexivity |].
  change (json_escape (c :: s)) with (json_escape_char c ++ json_escape s).
  now rewrite forallb_app, from_space_escape_char, IH.
Qed.

Lemma from_space_literal s : forallb from_space (json_string_literal s) = true.
Proof.
  rewrite json_string_literal_field.
  change (forallb from_space (json_escape (field_value s) ++ [DQUOTE]) = true).
  now rewrite forallb_app, from_space_escape.
Qed.

Lemma from_space_object r : forallb from_space (json_object_text r) = true.
Proof.
  unfold json_object_text.
  now rewrite !forallb_app, !from_space_literal.
Qed.

Lemma from_space_comma_separated rows :
  forallb from_space (comma_separated (map json_object_text rows)) = true.
Proof.
  induction rows as [| r [| r1 rows] IH]; [reflexivity | apply from_space_object |].
  change (comma_separated (map json_object_text (r :: r1 :: rows)))
    with (json_object_text r ++ str "," ++
          comma_separated (map json_object_text (r1 :: rows))).
  now rewrite !forallb_app, from_space_object, IH.
Qed.

Lemma stdout_array_or_empty_aux w argv :
  stdout (run w argv) = []
  \/ exists rows, stdout (run w argv) = json_array_text rows.
Proof.
  remember (run w argv) as r eqn:Hr.
  pose proof (run_has_shape w argv) as H. rewrite <- Hr in H. clear Hr.
  destruct H as [e He | path e He | path e He | path m e Hm He
                | path m rows e Hm He | path m rows Hm];
    cbn [stdout]; first [now left | right; now exists rows].
Qed.

(** X10.  Of the calls recorded in [Call] (open, prepare, bind, step,
    finalize, close; the accessors [sqlite3_errmsg] and
    [sqlite3_column_text] are not among them), every run either makes
    none, or opens the store once, read-only, and closes the connection as
    the last of them.  The recorded calls in between are none (the open
    failed), or only the preparation of the fixed query (it failed), or
    the preparation, the binding of a positive [int] to parameter 1, any
    number of steps, and the finalization of the statement. *)
Theorem engine_call_discipline w argv :
  engine_calls (run w argv) = []
  \/ exists path mid,
       engine_calls (run w argv)
       = CallOpen path SQLITE_OPEN_READONLY :: mid ++ [CallClose]
       /\ (mid = []
           \/ mid = [CallPrepare SQL_QUERY]
           \/ exists m n,
                0 < m <= INT_MAX
                /\ mid = CallPrepare SQL_QUERY :: CallBindInt 1 m
                         :: repeat CallStep n ++ [CallFinalize]).
Proof.
  remember (run w argv) as r eqn:Hr.
  pose proof (run_has_shape w argv) as H. rewrite <- Hr in H. clear Hr.
  destruct H as [e He | path e He | path e He | path m e Hm He
                | path m rows e Hm He | path m rows Hm]; cbn [engine_calls].
  - now left.
  - right. exists path, []. split; [reflexivity | now left].
  - right. exists path, [CallPrepare SQL_QUERY]. split; [reflexivity |].
    right. now left.
  - right. exists path, [CallPrepare SQL_QUERY; CallBindInt 1 m; CallFinalize].
    split; [reflexivity |]. right. right. exists m, 0%nat. now split.
  - right. eexists path, _. split.
    2: { right. right. exists m, (S (List.length rows)). split; [exact Hm | reflexivity]. }
    cbn [app]. now rewrite <- !app_assoc.
  - right. eexists path, _. split.
    2: { right. right. exists m, (S (List.length rows)). split; [exact Hm | reflexivity]. }
    cbn [app]. now rewrite <- !app_assoc.
Qed.

(** X11.  The exit status of every run is 0 or 1, and it is 0 exactly when
    nothing was written to standard error. *)
Theorem exit_status_and_stderr w argv :
  (exit_status (run w argv) = 0 /\ stderr (run w argv) = [])
  \/ (exit_status (run w argv) = 1 /\ stderr (run w argv) <> []).
Proof.
  remember (run w argv) as r eqn:Hr.
  pose proof (run_has_shape w argv) as H. rewrite <- Hr in H. clear Hr.
  destruct H; cbn [exit_status stderr]; first [now left | now right].
Qed.

(** X12.  In every run standard output is either empty, and then the exit
    status is 1, or the complete JSON array of some rows, which the JSON
    reader accepts; this holds on the failing runs too.  A run with exit
    status 0 always has the array. *)
Theorem stdout_empty_or_array w argv :
  (stdout (run w argv) = [] /\ exit_status (run w argv) = 1)
  \/ exists rows,
       stdout (run w argv) = json_array_text rows
       /\ json_parse (stdout (run w argv)) = Some (JArray (map json_of_row rows)).
Proof.
  remember (run w argv) as r eqn:Hr.
  pose proof (run_has_shape w argv) as H. rewrite <- Hr in H. clear Hr.
  destruct H as [e He | path e He | path e He | path m e Hm He
                | path m rows e Hm He | path m rows Hm];
    cbn [exit_status stdout];
    first [ now left
          | right; exists rows; split;
            [reflexivity | apply json_parse_array_text] ].
Qed.

(** X13.  Whatever the rows contain, standard output is at most one line:
    it is empty, or it ends with a newline and every byte before that
    newline has a code of 0x20 or above, so that no newline, carriage
    return, tab or other character below 0x20 occurs inside the line.
    (DEL, 0x7f, is written as it is and can occur.) *)
Theorem stdout_single_line w argv :
  stdout (run w argv) = []
  \/ exists line,
       stdout (run w argv) = line ++ [NL]
       /\ forallb from_space line = true
       /\ ~ In NL line /\ ~ In CR line.
Proof.
  destruct (stdout_array_or_empty_aux w argv) as [H | [rows H]]; [now left |].
  right. exists (str "[" ++ comma_separated (map json_object_text rows) ++ str "]").
  assert (Hline : forallb from_space
                    (str "[" ++ comma_separated (map json_object_text rows) ++ str "]")
                  = true)
    by now rewrite !forallb_app, from_space_comma_separated.
  split; [| split; [exact Hline |]].
  - rewrite H. unfold json_array_text. now rewrite <- !app_assoc.
  - rewrite forallb_forall in Hline.
    split; intros Hin; apply Hline in Hin; discriminate Hin.
Qed.

(** ** The row loop in full *)

(** X14.  Once the parameter is bound, [sqlite3_step] is called until it
    first reports something other than [SQLITE_ROW], and never after: one
    object is written per row reported before that, the number of steps is
    the number of objects plus one, and the statement is then finalized
    and the connection closed, in that order.  The exit status is 0 if the
    last report was [SQLITE_DONE] and 1 otherwise. *)
Theorem steps_until_not_row w argv minutes :
  reaches_query w argv minutes ->
  stdout (run w argv) = json_array_text (fetched (w_steps w minutes))
  /\ (exists path,
        engine_calls (run w argv)
        = [CallOpen path SQLITE_OPEN_READONLY; CallPrepare SQL_QUERY;
           CallBindInt 1 minutes]
          ++ repeat CallStep (S (List.length (fetched (w_steps w minutes))))
          ++ [CallFinalize; CallClose])
  /\ exit_status (run w argv)
     = (if final_rc (w_steps w minutes) =? SQLITE_DONE then 0 else 1)
  /\ (forall rows rc more,
        w_steps w minutes = map StepRow rows ++ StepRc rc :: more ->
        rc <> SQLITE_ROW ->
        fetched (w_steps w minutes) = rows
        /\ final_rc (w_steps w minutes) = rc).
Proof.
  intros (Hargs & (home & Hhome & Hopen) & Hprep & Hbind).
  rewrite (run_loop w argv minutes home Hargs Hhome Hopen Hprep Hbind).
  cbn [stdout engine_calls exit_status].
  split; [reflexivity |]. split; [now exists (db_path_of home) |].
  split; [reflexivity |].
  intros rows rc more Hsteps Hrc. rewrite Hsteps.
  apply (fetched_rows rows (StepRc rc :: more)). exact Hrc.
Qed.

Lemma steps_until_not_row_witness :
  stdout (run (world_of [StepRow row_hello; StepRc SQLITE_IOERR; StepRow row_nulls])
              [str "imessage-reader"])
  = json_array_text [row_hello]
  /\ exit_status (run (world_of [StepRow row_hello; StepRc SQLITE_IOERR;
                                 StepRow row_nulls])
                      [str "imessage-reader"]) = 1.
Proof.
  destruct (steps_until_not_row
              (world_of [StepRow row_hello; StepRc SQLITE_IOERR; StepRow row_nulls])
              [str "imessage-reader"] 20)
    as (Hout & _ & Hst & _).
  - unfold reaches_query. repeat split; try reflexivity.
    exists (str "/Users/me"). split; reflexivity.
  - split; [exact Hout | exact Hst].
Defined.

(** ** More on [print_json_string] *)

Lemma c_str_app_nul a b : c_str (a ++ NUL :: b) = c_str a.
Proof.
  induction a as [| c a IH]; [reflexivity |].
  simpl. destruct (Ascii.eqb c NUL); [reflexivity | now rewrite IH].
Qed.

Lemma json_escape_char_length c :
  (1 <= List.length (json_escape_char c) <= 6)%nat.
Proof. destruct c as [[] [] [] [] [] [] [] []]; simpl; lia. Qed.

Lemma json_escape_length s :
  (List.length s <= List.length (json_escape s) <= 6 * List.length s)%nat.
Proof.
  induction s as [| c s IH]; [simpl; lia |].
  change (json_escape (c :: s)) with (json_escape_char c ++ json_escape s).
  rewrite length_app. pose proof (json_escape_char_length c).
  simpl List.length. lia.
Qed.

(** X15.  A byte that follows a NUL in the buffer is never written: the
    output for a buffer with an embedded NUL is the output for the part
    before it. *)
Theorem bytes_after_nul_not_written (a b : bytes) :
  returns (print_json_string (Some (a ++ NUL :: b))) tt
          (p_stdout (snd (print_json_string (Some a) proc0))) [] [].
Proof.
  rewrite (print_json_string_returns (Some a) proc0).
  cbn [snd after p_stdout proc0 app].
  eapply returns_eq; [apply print_json_string_returns | | reflexivity ..].
  unfold json_string_literal. now rewrite c_str_app_nul.
Qed.

(** X16.  What [print_json_string] writes for a string of [n] bytes
    (before the NUL) is at least [n + 2] and at most [6 * n + 2] bytes
    long. *)
Theorem json_string_output_length (s : bytes) :
  (List.length (c_str s) + 2
   <= List.length (p_stdout (snd (print_json_string (Some s) proc0)))
   <= 6 * List.length (c_str s) + 2)%nat.
Proof.
  rewrite (print_json_string_returns (Some s) proc0).
  cbn [snd after p_stdout proc0 app json_string_literal].
  pose proof (json_escape_length (c_str s)).
  cbn [List.length]. rewrite length_app. cbn [List.length]. lia.
Qed.

(** X17.  Two arguments of [print_json_string] give the same output
    exactly when they hold the same bytes before the NUL, a NULL pointer
    counting as the empty string: distinct texts are never confused, but
    NULL and the empty text are. *)
Theorem json_string_output_injective (s t : option bytes) :
  p_stdout (snd (print_json_string s proc0))
  = p_stdout (snd (print_json_string t proc0))
  <-> field_value s = field_value t.
Proof.
  rewrite (print_json_string_returns s proc0), (print_json_string_returns t proc0).
  cbn [snd after p_stdout proc0 app].
  split.
  - intros Heq.
    pose proof (json_value_literal 0 s []) as Hs.
    pose proof (json_value_literal 0 t []) as Ht.
    rewrite !app_nil_r in Hs, Ht. rewrite Heq in Hs. rewrite Hs in Ht.
    now injection Ht.
  - intros Heq. now rewrite !json_string_literal_field, Heq.
Qed.

Lemma json_string_output_injective_witness :
  p_stdout (snd (print_json_string None proc0))
  = p_stdout (snd (print_json_string (Some []) proc0)).
Proof.
  apply (proj2 (json_string_output_injective None (Some []))). reflexivity.
Defined.

(** ** More on the arguments *)

(** X18.  Without arguments, also when the argument vector is empty, the
    lookback value bound to the query is 20. *)
Theorem default_lookback w argv home :
  tl argv = [] ->
  home_dir w = Some home ->
  w_open w (db_path_of home) = SQLITE_OK ->
  w_prepare w SQL_QUERY = SQLITE_OK ->
  exists c,
    engine_calls (run w argv)
    = CallOpen (db_path_of home) SQLITE_OPEN_READONLY
      :: CallPrepare SQL_QUERY :: CallBindInt 1 20 :: c.
Proof.
  intros Hargs Hhome Hopen Hprep.
  apply run_calls_bind; try assumption. now rewrite Hargs.
Qed.

Lemma default_lookback_witness :
  exists c,
    engine_calls (run (world_of []) [])
    = CallOpen (db_path_of (str "/Users/me")) SQLITE_OPEN_READONLY
      :: CallPrepare SQL_QUERY :: CallBindInt 1 20 :: c.
Proof.
  apply (default_lookback (world_of []) [] (str "/Users/me")); reflexivity.
Defined.

Lemma parse_args_prog_irrelevant prog prog' args :
  (forall m0,
      (exists m, parse_args prog args m0 = ret m
                 /\ parse_args prog' args m0 = ret m)
      \/ (exists e e', exits (parse_args prog args m0) 1 [] e []
                       /\ exits (parse_args prog' args m0) 1 [] e' []))
  /\ (forall a m0,
      (exists m, parse_args prog (a :: args) m0 = ret m
                 /\ parse_args prog' (a :: args) m0 = ret m)
      \/ (exists e e', exits (parse_args prog (a :: args) m0) 1 [] e []
                       /\ exits (parse_args prog' (a :: args) m0) 1 [] e' [])).
Proof.
  assert (Husage : forall e0,
             exists e e', exits (err e0 ;; @usage Z prog) 1 [] e []
                          /\ exits (err e0 ;; @usage Z prog') 1 [] e' []).
  { intros e0. destruct (usage_exits prog e0) as [e He].
    destruct (usage_exits prog' e0) as [e' He']. now exists e, e'. }
  induction args as [| b args [IH0 IH1]].
  - split.
    + intros m0. left. now exists m0.
    + intros a m0. right. cbn [parse_args].
      destruct (strcmp_eq a FLAG_MINUTES); apply Husage.
  - split; [apply IH1 |].
    intros a m0. cbn [parse_args].
    destruct (strcmp_eq a FLAG_MINUTES); [| right; apply Husage].
    destruct (Z.leb_spec (atoi b) 0) as [Hb | Hb]; [| apply IH0].
    right. destruct (reject_exits
                       (str "Error: minutes must be a positive integer" ++ [NL]))
      as [e He]. now exists e, e.
Qed.

(** X19.  The program name is used for the usage line only: two runs that
    differ in [argv[0]] alone have the same exit status, the same standard
    output and make the same calls to the engine. *)
Theorem program_name_only_in_usage w prog prog' args :
  exit_status (run w (prog :: args)) = exit_status (run w (prog' :: args))
  /\ stdout (run w (prog :: args)) = stdout (run w (prog' :: args))
  /\ engine_calls (run w (prog :: args)) = engine_calls (run w (prog' :: args)).
Proof.
  destruct (proj1 (parse_args_prog_irrelevant prog prog' args) DEFAULT_MINUTES)
    as [(m & Hm & Hm') | (e & e' & He & He')].
  - assert (Heq : run w (prog :: args) = run w (prog' :: args)).
    { unfold run, main. cbn [hd tl]. unfold bind at 1 3. now rewrite Hm, Hm'. }
    now rewrite Heq.
  - rewrite (run_of_parse_exit w prog args e He).
    rewrite (run_of_parse_exit w prog' args e' He'). now repeat split.
Qed.

(** [atoi] reads past leading white space and stops at the first byte that
    is not a digit. *)

Lemma skip_space_app ws s :
  forallb isspace ws = true -> skip_space (ws ++ s) = skip_space s.
Proof.
  induction ws as [| c ws IH]; [reflexivity |].
  simpl. intros H. apply andb_true_iff in H as [Hc Hws].
  rewrite Hc. now apply IH.
Qed.

Lemma digits_value_app ds junk : forall acc,
  forallb isdigit ds = true ->
  match junk with
  | [] => true
  | c :: _ => negb (isdigit c)
  end = true ->
  digits_value acc (ds ++ junk) = decimal_value acc ds.
Proof.
  induction ds as [| d ds IH]; intros acc Hds Hjunk.
  - destruct junk as [| c junk]; [reflexivity |].
    simpl. apply negb_true_iff in Hjunk. now rewrite Hjunk.
  - simpl in Hds. apply andb_true_iff in Hds as [Hd Hds].
    simpl. rewrite Hd. now apply IH.
Qed.

Lemma skip_space_not_space c s :
  isspace c = false -> skip_space (c :: s) = c :: s.
Proof. intros H. simpl. now rewrite H. Qed.

Lemma strtol10_lenient ws n junk :
  forallb isspace ws = true ->
  is_numeral n = true ->
  match junk with
  | [] => true
  | c :: _ => negb (isdigit c)
  end = true ->
  strtol10 (ws ++ n ++ junk) = clamp_long (numeral_value n).
Proof.
  intros Hws Hn Hjunk.
  destruct n as [| c s]; [discriminate |].
  unfold strtol10. rewrite skip_space_app by assumption.
  unfold is_numeral in Hn. unfold numeral_value.
  cbn [app].
  destruct (Ascii.eqb_spec c "-"%char) as [-> | Hm].
  - cbn [orb] in Hn. apply all_digits_forallb in Hn.
    rewrite skip_space_not_space by reflexivity. cbn.
    now rewrite digits_value_app.
  - destruct (Ascii.eqb_spec c "+"%char) as [-> | Hp].
    + cbn [orb] in Hn. apply all_digits_forallb in Hn.
      rewrite skip_space_not_space by reflexivity. cbn.
      now rewrite digits_value_app.
    + cbn [orb] in Hn. apply all_digits_forallb in Hn.
      assert (Hc : isdigit c = true)
        by (simpl in Hn; now apply andb_true_iff in Hn as [Hc _]).
      rewrite skip_space_not_space by now apply isdigit_not_space.
      destruct (Ascii.eqb_spec c "-"%char); [contradiction |].
      destruct (Ascii.eqb_spec c "+"%char); [contradiction |].
      change (c :: s ++ junk) with ((c :: s) ++ junk).
      now rewrite digits_value_app.
Qed.

(** X20.  The value after [--minutes] may carry white space before the
    number and any text after it that does not begin with a digit: when
    the number is a decimal numeral with a value from 1 to 2147483647,
    that value is accepted as the lookback value and nothing is
    reported. *)
Theorem minutes_value_lenient prog ws n junk m0 :
  forallb isspace ws = true ->
  is_numeral n = true ->
  0 < numeral_value n <= INT_MAX ->
  match junk with
  | [] => true
  | c :: _ => negb (isdigit c)
  end = true ->
  parse_args prog [FLAG_MINUTES; ws ++ n ++ junk] m0 = ret (numeral_value n).
Proof.
  intros Hws Hn Hrange Hjunk.
  assert (Hatoi : atoi (ws ++ n ++ junk) = numeral_value n).
  { unfold atoi. rewrite strtol10_lenient by assumption.
    unfold clamp_long, to_int, LONG_MIN, LONG_MAX, INT_MAX in *.
    rewrite Z.min_r, Z.max_r by lia.
    rewrite Z.mod_small by lia. lia. }
  rewrite parse_args_flag, Hatoi.
  destruct (Z.leb_spec (numeral_value n) 0); [lia | reflexivity].
Qed.

Lemma minutes_value_lenient_witness :
  parse_args (str "imessage-reader")
             [FLAG_MINUTES; [SPACE; TAB] ++ str "+15" ++ str " minutes"]
             DEFAULT_MINUTES
  = ret (numeral_value (str "+15"))
  /\ numeral_value (str "+15") = 15.
Proof.
  split; [| reflexivity].
  apply (minutes_value_lenient (str "imessage-reader") [SPACE; TAB] (str "+15")
           (str " minutes") DEFAULT_MINUTES).
  - reflexivity.
  - reflexivity.
  - vm_compute. split; [reflexivity | discriminate].
  - reflexivity.
Defined.

(** ** More on the query *)

(** X21.  As long as the threshold is computed in 64-bit integers, a
    longer lookback never loses a row: a row that qualifies for [minutes]
    qualifies for every larger value. *)
Theorem wider_window_keeps_rows now minutes minutes' m :
  0 < minutes <= minutes' ->
  minutes' <= INT_MAX ->
  LONG_MIN <= (now - 978307200 - minutes' * 60) * 1000000000 ->
  (now - 978307200 - minutes * 60) * 1000000000 <= LONG_MAX ->
  sql_where now minutes m = true ->
  sql_where now minutes' m = true.
Proof.
  unfold INT_MAX, LONG_MIN, LONG_MAX. intros Hm Hmax Hlo Hhi Hw.
  unfold sql_where in *. apply andb_true_iff in Hw as [Hlike Hgt].
  rewrite Hlike. cbn [andb].
  rewrite sql_threshold_int in Hgt
    by (unfold INT_MAX, LONG_MIN, LONG_MAX; lia).
  rewrite sql_threshold_int
    by (unfold INT_MAX, LONG_MIN, LONG_MAX; lia).
  apply sql_gt_int in Hgt as (d & Hd & Hlt).
  unfold sql_date. rewrite Hd. cbn [sql_gt]. apply Z.ltb_lt. lia.
Qed.

Lemma wider_window_keeps_rows_witness :
  sql_where 1714558000 60
    (mkMessage (Some (str "A1B2")) (Some (str "jarvis: lights"))
               (Some 736249500000000000)) = true.
Proof.
  apply (wider_window_keeps_rows 1714558000 30 60).
  - vm_compute. split; [reflexivity | discriminate].
  - vm_compute. discriminate.
  - vm_compute. discriminate.
  - vm_compute. discriminate.
  - reflexivity.
Defined.

(** ** More on the path of the store *)

Lemma db_suffix_length : List.length DB_SUFFIX = 25%nat.
Proof. reflexivity. Qed.

(** X22.  The path that is opened is the home directory followed by
    [/Library/Messages/chat.db], unchanged, exactly when the home
    directory is at most 998 bytes long; a longer one loses the end of the
    suffix. *)
Theorem db_path_uncut_up_to_998 w argv minutes home :
  parse_args (hd [] argv) (tl argv) DEFAULT_MINUTES proc0 = (Done minutes, proc0) ->
  home_dir w = Some home ->
  (exists c, engine_calls (run w argv)
             = CallOpen (db_path_of home) SQLITE_OPEN_READONLY :: c)
  /\ (db_path_of home = c_str home ++ DB_SUFFIX
      <-> (List.length (c_str home) <= 998)%nat).
Proof.
  intros Hargs Hhome.
  split; [now apply (run_calls_open w argv minutes home) |].
  split.
  - intros Heq. pose proof (db_path_bounded home) as Hb.
    rewrite Heq, length_app, db_suffix_length in Hb. lia.
  - intros Hlen. apply db_path_whole.
    rewrite length_app, db_suffix_length. lia.
Qed.

Lemma db_path_uncut_up_to_998_witness :
  (exists c, engine_calls (run (world_of []) [str "imessage-reader"])
             = CallOpen (db_path_of (str "/Users/me")) SQLITE_OPEN_READONLY :: c)
  /\ db_path_of (str "/Users/me") = str "/Users/me/Library/Messages/chat.db"
  /\ db_path_of long_home <> c_str long_home ++ DB_SUFFIX.
Proof.
  destruct (db_path_uncut_up_to_998 (world_of []) [str "imessage-reader"] 20
              (str "/Users/me") eq_refl eq_refl) as [Hcalls Hiff].
  split; [exact Hcalls |]. split.
  - apply (proj2 Hiff). vm_compute. lia.
  - intros Heq.
    destruct (db_path_uncut_up_to_998 world_long_home [str "imessage-reader"] 20
                long_home eq_refl eq_refl) as [_ Hlong].
    apply (proj1 Hlong) in Heq. vm_compute in Heq. lia.
Defined.
